(** * Wren primitives: a shallow embedding of [src/primitives.c]

    The file models the primitive (natively implemented) methods of the
    Wren virtual machine and the bootstrap routine [registerPrimitives]
    that binds them to the built-in classes.

    Values are pointers to heap objects ([Value] is [Obj*] in the source),
    so the embedding keeps an explicit object store, a store of character
    buffers for [char*] data, and the console as the bytes written so far.
    Every primitive is a computation over that machine state which either
    returns a value and a new state or stops on an operation whose
    behaviour C leaves undefined. *)

From Stdlib Require Import Floats Ascii String.
From stdpp Require Import gmap strings list.

Set Default Proof Using "Type".
#[local] Set Warnings "-clear-no-such-hyp".

(** ** Objects *)

(** A [Value] is the address of an object. *)
Abbreviation Value := positive (only parsing).

(** The type tag stored in every object header.  The source names
    [OBJ_NUM] and [OBJ_STRING]; the tags of classes and instances are the
    remaining two variants of the value model. *)
Inductive ObjType := OBJ_NUM | OBJ_STRING | OBJ_CLASS | OBJ_INSTANCE.

Global Instance ObjType_eq_dec : EqDecision ObjType.
Proof. solve_decision. Defined.

(** A [char*]: an allocated block and a position inside it. *)
Record CharPtr := { block : positive; offset : nat }.

Global Instance CharPtr_eq_dec : EqDecision CharPtr.
Proof. solve_decision. Defined.

(** The native functions defined with [DEF_PRIMITIVE]; a method slot stores
    one of them as a function pointer. *)
Inductive Primitive :=
| primitive_num_abs
| primitive_num_toString
| primitive_num_minus
| primitive_num_plus
| primitive_num_multiply
| primitive_num_divide
| primitive_string_contains
| primitive_string_count
| primitive_string_toString
| primitive_string_plus
| primitive_io_write.

Global Instance Primitive_eq_dec : EqDecision Primitive.
Proof. solve_decision. Defined.

Inductive MethodType := METHOD_NONE | METHOD_PRIMITIVE.

Global Instance MethodType_eq_dec : EqDecision MethodType.
Proof. solve_decision. Defined.

(** One slot of a method table: the two fields the [PRIMITIVE] macro
    assigns. *)
Record Method := { type : MethodType; primitive : option Primitive }.

Global Instance Method_eq_dec : EqDecision Method.
Proof. solve_decision. Defined.

(** Modelled from the spec: the slot that was never bound ("empty"); the
    declaration of [Method] is not part of the source file. *)
Definition emptyMethod : Method := {| type := METHOD_NONE; primitive := None |}.

Inductive Obj :=
| ObjNum (value : float)
| ObjString (value : CharPtr)
| ObjClass (methods : gmap nat Method)
| ObjInstance (classObj : Value) (fields : gmap nat Value).

Definition objType (o : Obj) : ObjType :=
  match o with
  | ObjNum _ => OBJ_NUM
  | ObjString _ => OBJ_STRING
  | ObjClass _ => OBJ_CLASS
  | ObjInstance _ _ => OBJ_INSTANCE
  end.

(** ** Machine state *)

(** The fields of [VM] that the source file reads or writes. *)
Record VM := {
  symbols : list string;
  numClass : Value;
  stringClass : Value;
  unsupported : Value;
  globalSymbols : list string;
  globals : gmap nat Value
}.

(** A cell of a character buffer: [None] is a byte that was allocated but
    never written. *)
Abbreviation cell := (option ascii) (only parsing).

Record World := {
  vm : VM;
  objects : gmap positive Obj;
  buffers : gmap positive (list cell);
  console : list ascii
}.

Definition set_vm (f : VM → VM) (w : World) : World :=
  {| vm := f (vm w); objects := objects w; buffers := buffers w;
     console := console w |}.

Definition set_objects (f : gmap positive Obj → gmap positive Obj)
    (w : World) : World :=
  {| vm := vm w; objects := f (objects w); buffers := buffers w;
     console := console w |}.

Definition set_buffers
    (f : gmap positive (list cell) → gmap positive (list cell))
    (w : World) : World :=
  {| vm := vm w; objects := objects w; buffers := f (buffers w);
     console := console w |}.

Definition set_console (f : list ascii → list ascii) (w : World) : World :=
  {| vm := vm w; objects := objects w; buffers := buffers w;
     console := f (console w) |}.

(** ** Computations *)

(** The ways a primitive can leave defined behaviour. *)
Inductive Trap :=
| InvalidPointer    (* dereference of an address that holds no object *)
| WrongVariant      (* AS_NUM / AS_STRING on an object of another tag *)
| InvalidRead       (* read past a buffer, or of an unwritten byte *)
| OutOfBounds       (* write past the end of an allocated buffer *)
| Overlap           (* strcpy between overlapping regions *)
| MissingArgument.  (* args[i] beyond the argument array *)

Global Instance Trap_eq_dec : EqDecision Trap.
Proof. solve_decision. Defined.

Inductive Result (A : Type) :=
| Ok (a : A) (w : World)
| Fault (t : Trap).
Arguments Ok {A} a w.
Arguments Fault {A} t.

Definition M (A : Type) : Type := World → Result A.

Definition ret {A} (a : A) : M A := fun w => Ok a w.

Definition bind {A B} (m : M A) (k : A → M B) : M B :=
  fun w => match m w with
           | Ok a w' => k a w'
           | Fault t => Fault t
           end.

Definition trap {A} (t : Trap) : M A := fun _ => Fault t.

Definition get : M World := fun w => Ok w w.

Definition modify (f : World → World) : M unit := fun w => Ok tt (f w).

Definition orTrap {A} (t : Trap) (o : option A) : M A :=
  match o with
  | Some a => ret a
  | None => trap t
  end.

Notation "'let!' x := m 'in' k" := (bind m (fun x => k))
  (at level 10, x name, m at level 100, k at level 200,
   format "'[v' 'let!'  x  :=  m  'in' '/' k ']'").
Notation "m >> k" := (bind m (fun _ => k))
  (at level 100, k at level 200, right associativity).

(** ** The C library

    [strlen], [strcpy], [strncpy], [strstr], [malloc] and [printf] follow
    the C standard: a string is the run of bytes up to the first NUL, and
    reading or writing outside the allocated block is undefined. *)

Definition NUL : ascii := "000"%char.

(** The bytes of the string that starts at the head of [cells]. *)
Fixpoint cstring (cells : list cell) : option (list ascii) :=
  match cells with
  | Some c :: rest =>
      if decide (c = NUL) then Some [] else cons c <$> cstring rest
  | _ => None
  end.

Definition cellsAt (w : World) (p : CharPtr) : option (list cell) :=
  drop (offset p) <$> buffers w !! block p.

Definition readString (p : CharPtr) : M (list ascii) :=
  let! w := get in orTrap InvalidRead (cellsAt w p ≫= cstring).

(** Write [bs] at [p]; every byte must fall inside the block. *)
Definition store (p : CharPtr) (bs : list ascii) : M unit :=
  let! w := get in
  match buffers w !! block p with
  | None => trap OutOfBounds
  | Some cells =>
      if decide (offset p + length bs ≤ length cells) then
        modify (set_buffers
          <[block p := take (offset p) cells ++ (Some <$> bs)
                         ++ drop (offset p + length bs) cells]>)
      else trap OutOfBounds
  end.

Definition overlaps (dst src : CharPtr) (n : nat) : bool :=
  bool_decide (block dst = block src ∧
               offset dst < offset src + n ∧ offset src < offset dst + n).

Definition strlen (p : CharPtr) : M nat :=
  let! s := readString p in ret (length s).

Definition strcpy (dst src : CharPtr) : M CharPtr :=
  let! s := readString src in
  if overlaps dst src (S (length s)) then trap Overlap
  else store dst (s ++ [NUL]) >> ret dst.

(** The [n] bytes [strncpy] writes: the source up to its NUL, padded with
    NUL, or the first [n] bytes when no NUL comes earlier. *)
Fixpoint strncpyBytes (n : nat) (cells : list cell) : option (list ascii) :=
  match n with
  | 0 => Some []
  | S n' =>
      match cells with
      | Some c :: rest =>
          if decide (c = NUL) then Some (replicate n NUL)
          else cons c <$> strncpyBytes n' rest
      | _ => None
      end
  end.

Definition strncpy (dst src : CharPtr) (n : nat) : M CharPtr :=
  let! w := get in
  let! bs := orTrap InvalidRead (cellsAt w src ≫= strncpyBytes n) in
  if overlaps dst src n then trap Overlap
  else store dst bs >> ret dst.

Fixpoint isPrefix (needle hay : list ascii) : bool :=
  match needle, hay with
  | [], _ => true
  | _ :: _, [] => false
  | n :: needle', h :: hay' =>
      if decide (n = h) then isPrefix needle' hay' else false
  end.

(** Position of the first occurrence of [needle] in [hay]. *)
Fixpoint findSub (needle hay : list ascii) : option nat :=
  if isPrefix needle hay then Some 0
  else match hay with
       | [] => None
       | _ :: hay' => S <$> findSub needle hay'
       end.

(** [strstr]: a pointer to the first occurrence, or NULL ([None]). *)
Definition strstr (hay needle : CharPtr) : M (option CharPtr) :=
  let! h := readString hay in
  let! n := readString needle in
  ret ((λ i, {| block := block hay; offset := offset hay + i |})
         <$> findSub n h).

(** [malloc size]: a new block of [size] unwritten bytes.  The source never
    tests the result, so allocation is taken to succeed. *)
Definition malloc (size : nat) : M CharPtr :=
  let! w := get in
  let b := fresh (dom (buffers w)) in
  modify (set_buffers <[b := replicate size None]>) >>
  ret {| block := b; offset := 0 |}.

(** A local array such as [char temp[100]] and its release on return. *)
Definition localArray (size : nat) : M CharPtr := malloc size.

Definition release (p : CharPtr) : M unit :=
  modify (set_buffers (delete (block p))).

(** [printf] of a format without conversions. *)
Definition printf (text : string) : M unit :=
  modify (set_console (λ out, out ++ list_ascii_of_string text)).

(** Conversion of a [size_t] or an [int] to [double]. *)
Definition toDouble (n : Z) : float :=
  SF2Prim (binary_normalize prec emax n 0 false).

(** ** Objects on the heap *)

Definition deref (v : Value) : M Obj :=
  let! w := get in orTrap InvalidPointer (objects w !! v).

(** [v->type] *)
Definition typeOf (v : Value) : M ObjType :=
  let! o := deref v in ret (objType o).

(** Modelled from the spec: the accessor macros [AS_NUM] and [AS_STRING]
    are declared outside the source file; extraction is valid only when the
    tag matches, and extraction at another tag is forbidden. *)
Definition AS_NUM (v : Value) : M float :=
  let! o := deref v in
  match o with
  | ObjNum x => ret x
  | _ => trap WrongVariant
  end.

(** Modelled from the spec: [AS_STRING], the accessor for Strings, under
    the same rule as [AS_NUM]. *)
Definition AS_STRING (v : Value) : M CharPtr :=
  let! o := deref v in
  match o with
  | ObjString p => ret p
  | _ => trap WrongVariant
  end.

Definition allocate (o : Obj) : M Value :=
  let! w := get in
  let v := fresh (dom (objects w)) in
  modify (set_objects <[v := o]>) >> ret v.

(** Modelled from the spec: the constructors [makeNum], [makeString],
    [makeClass] and [makeInstance] are defined outside the source file;
    each returns a newly allocated object whose tag matches the
    constructor, a class starts with an empty method table and an instance
    refers to its class and starts without fields. *)
Definition makeNum (x : float) : M Value := allocate (ObjNum x).

(** Modelled from the spec: [makeString], which takes over the buffer it is
    given. *)
Definition makeString (text : CharPtr) : M Value := allocate (ObjString text).

(** Modelled from the spec: [makeClass], a class with an empty method
    table. *)
Definition makeClass : M Value := allocate (ObjClass ∅).

(** Modelled from the spec: [makeInstance], an instance of [cls] without
    fields. *)
Definition makeInstance (cls : Value) : M Value := allocate (ObjInstance cls ∅).

(** ** Symbols and method tables *)

Fixpoint findSymbol (table : list string) (name : string) : option nat :=
  match table with
  | [] => None
  | n :: rest =>
      if decide (n = name) then Some 0 else S <$> findSymbol rest name
  end.

(** Modelled from the spec: [ensureSymbol] is defined outside the source
    file; it returns the id under which the name was registered before, or
    registers the name under the next id, ids being given in order of first
    registration.  The name is the first [len] bytes of [name]. *)
Definition ensureSymbol (table : list string) (name : string) (len : nat)
    : list string * nat :=
  let key := substring 0 len name in
  match findSymbol table key with
  | Some i => (table, i)
  | None => (table ++ [key], length table)
  end.

(** Modelled from the spec: [addSymbol] is defined outside the source file;
    the spec gives it the observable effect of [ensureSymbol]. *)
Definition addSymbol (table : list string) (name : string) (len : nat)
    : list string * nat :=
  ensureSymbol table name len.

(** Modelled from the spec: a method table is indexed directly by symbol
    id, and a slot that was never bound is empty. *)
Definition lookupMethod (methods : gmap nat Method) (symbol : nat) : Method :=
  default emptyMethod (methods !! symbol).

Definition set_symbols (t : list string) (v : VM) : VM :=
  {| symbols := t; numClass := numClass v; stringClass := stringClass v;
     unsupported := unsupported v; globalSymbols := globalSymbols v;
     globals := globals v |}.

Definition set_globalSymbols (t : list string) (v : VM) : VM :=
  {| symbols := symbols v; numClass := numClass v;
     stringClass := stringClass v; unsupported := unsupported v;
     globalSymbols := t; globals := globals v |}.

Definition set_globals (g : gmap nat Value) (v : VM) : VM :=
  {| symbols := symbols v; numClass := numClass v;
     stringClass := stringClass v; unsupported := unsupported v;
     globalSymbols := globalSymbols v; globals := g |}.

Definition set_unsupported (u : Value) (v : VM) : VM :=
  {| symbols := symbols v; numClass := numClass v;
     stringClass := stringClass v; unsupported := u;
     globalSymbols := globalSymbols v; globals := globals v |}.

(** [cls->methods[symbol].field = ...] for a class pointer [cls]. *)
Definition updateMethod (cls : Value) (symbol : nat) (f : Method → Method)
    : M unit :=
  let! o := deref cls in
  match o with
  | ObjClass methods =>
      modify (set_objects
        <[cls := ObjClass (<[symbol := f (lookupMethod methods symbol)]> methods)]>)
  | _ => trap WrongVariant
  end.

(** The macro [PRIMITIVE(cls, name, prim)].  Its first argument is an
    expression over [vm], evaluated where the macro uses it.  [strlen(name)]
    is taken for a name without a NUL byte, as the names in the source
    are: it is the length of the literal. *)
Definition PRIMITIVE (cls : VM → Value) (name : string) (prim : Primitive)
    : M unit :=
  let! w := get in
  let r := ensureSymbol (symbols (vm w)) name (String.length name) in
  modify (set_vm (set_symbols r.1)) >>
  let symbol := r.2 in
  (let! w := get in
   updateMethod (cls (vm w)) symbol
     (λ m, {| type := METHOD_PRIMITIVE; primitive := primitive m |})) >>
  (let! w := get in
   updateMethod (cls (vm w)) symbol
     (λ m, {| type := type m; primitive := Some prim |})).

(** The macro [GLOBAL(cls, name)]; [strlen(name)] is taken as in
    [PRIMITIVE]. *)
Definition GLOBAL (cls : Value) (name : string) : M unit :=
  let! obj := makeInstance cls in
  let! w := get in
  let r := addSymbol (globalSymbols (vm w)) name (String.length name) in
  modify (set_vm (set_globalSymbols r.1)) >>
  let symbol := r.2 in
  let! w := get in
  modify (set_vm (set_globals (<[symbol := obj]> (globals (vm w))))).

(** ** The primitives *)

(** [args[i]] *)
Definition arg (args : list Value) (i : nat) : M Value :=
  orTrap MissingArgument (args !! i).

(** [return vm->unsupported;] *)
Definition returnUnsupported : M Value :=
  let! w := get in ret (unsupported (vm w)).

Definition num_abs (args : list Value) : M Value :=
  let! a0 := arg args 0 in
  let! value := AS_NUM a0 in
  let value := if (value <? 0)%float then (- value)%float else value in
  makeNum value.

Definition num_minus (args : list Value) : M Value :=
  let! a1 := arg args 1 in
  let! t := typeOf a1 in
  if decide (t ≠ OBJ_NUM) then returnUnsupported else
  let! a0 := arg args 0 in
  let! x := AS_NUM a0 in
  let! y := AS_NUM a1 in
  makeNum (x - y)%float.

Definition num_plus (args : list Value) : M Value :=
  let! a1 := arg args 1 in
  let! t := typeOf a1 in
  if decide (t ≠ OBJ_NUM) then returnUnsupported else
  let! a0 := arg args 0 in
  let! x := AS_NUM a0 in
  let! y := AS_NUM a1 in
  makeNum (x + y)%float.

Definition num_multiply (args : list Value) : M Value :=
  let! a1 := arg args 1 in
  let! t := typeOf a1 in
  if decide (t ≠ OBJ_NUM) then returnUnsupported else
  let! a0 := arg args 0 in
  let! x := AS_NUM a0 in
  let! y := AS_NUM a1 in
  makeNum (x * y)%float.

Definition num_divide (args : list Value) : M Value :=
  let! a1 := arg args 1 in
  let! t := typeOf a1 in
  if decide (t ≠ OBJ_NUM) then returnUnsupported else
  let! a0 := arg args 0 in
  let! x := AS_NUM a0 in
  let! y := AS_NUM a1 in
  makeNum (x / y)%float.

Definition string_contains (args : list Value) : M Value :=
  let! a0 := arg args 0 in
  let! string := AS_STRING a0 in
  let! a1 := arg args 1 in
  let! search := AS_STRING a1 in
  let! n := strlen string in
  let! bothEmpty :=
    (if decide (n = 0) then
       let! m := strlen search in ret (bool_decide (m = 0))
     else ret false) in
  if bothEmpty then makeNum (toDouble 1) else
  let! found := strstr string search in
  makeNum (toDouble (match found with Some _ => 1 | None => 0 end)).

Definition string_count (args : list Value) : M Value :=
  let! a0 := arg args 0 in
  let! string := AS_STRING a0 in
  let! n := strlen string in
  let count := toDouble (Z.of_nat n) in
  makeNum count.

Definition string_toString (args : list Value) : M Value :=
  arg args 0.

Definition string_plus (args : list Value) : M Value :=
  let! a1 := arg args 1 in
  let! t := typeOf a1 in
  if decide (t ≠ OBJ_STRING) then returnUnsupported else
  let! a0 := arg args 0 in
  let! left := AS_STRING a0 in
  let! right := AS_STRING a1 in
  let! leftLength := strlen left in
  let! rightLength := strlen right in
  let! result := malloc (leftLength + rightLength) in
  strcpy result left >>
  strcpy {| block := block result; offset := offset result + leftLength |}
         right >>
  makeString result.

Definition newline : string := String "010"%char EmptyString.

Section Externals.

(** The text the C library's ["%g"] conversion produces for a double. *)
Variable format_g : float → list ascii.

(** The text form [printValue] gives a value in a machine state, where it
    has one; [printValue] is defined outside the source file. *)
Variable text_form : World → Value → option (list ascii).

(** [sprintf(buffer, "%g", x)] *)
Definition sprintf_g (buffer : CharPtr) (x : float) : M unit :=
  store buffer (format_g x ++ [NUL]).

(** Modelled from the spec: [printValue] is defined outside the source
    file; it prints the text form of its argument. *)
Definition printValue (v : Value) : M unit :=
  let! w := get in
  let! text := orTrap InvalidPointer (text_form w v) in
  modify (set_console (λ out, out ++ text)).

Definition num_toString (args : list Value) : M Value :=
  let! temp := localArray 100 in
  let! a0 := arg args 0 in
  let! x := AS_NUM a0 in
  sprintf_g temp x >>
  let! n := strlen temp in
  let size := n + 1 in
  let! result := malloc size in
  strncpy result temp size >>
  let! v := makeString result in
  release temp >> ret v.

Definition io_write (args : list Value) : M Value :=
  let! a1 := arg args 1 in
  printValue a1 >>
  printf newline >>
  arg args 1.

(** A call through the function pointer stored in a method slot. *)
Definition callPrimitive (p : Primitive) : list Value → M Value :=
  match p with
  | primitive_num_abs => num_abs
  | primitive_num_toString => num_toString
  | primitive_num_minus => num_minus
  | primitive_num_plus => num_plus
  | primitive_num_multiply => num_multiply
  | primitive_num_divide => num_divide
  | primitive_string_contains => string_contains
  | primitive_string_count => string_count
  | primitive_string_toString => string_toString
  | primitive_string_plus => string_plus
  | primitive_io_write => io_write
  end.


End Externals.

(** ** Bootstrap *)

Definition registerPrimitives : M unit :=
  PRIMITIVE numClass "abs" primitive_num_abs >>
  PRIMITIVE numClass "toString" primitive_num_toString >>
  PRIMITIVE numClass "- " primitive_num_minus >>
  PRIMITIVE numClass "+ " primitive_num_plus >>
  PRIMITIVE numClass "* " primitive_num_multiply >>
  PRIMITIVE numClass "/ " primitive_num_divide >>
  PRIMITIVE stringClass "contains " primitive_string_contains >>
  PRIMITIVE stringClass "count" primitive_string_count >>
  PRIMITIVE stringClass "toString" primitive_string_toString >>
  PRIMITIVE stringClass "+ " primitive_string_plus >>
  let! ioClass := makeClass in
  PRIMITIVE (λ _, ioClass) "write " primitive_io_write >>
  GLOBAL ioClass "io" >>
  let! unsupportedClass := makeClass in
  let! sentinel := makeInstance unsupportedClass in
  modify (set_vm (set_unsupported sentinel)).

(** ** Vocabulary of the statements *)

(** [returnsNumber m w x]: from state [w] the computation [m] returns a
    newly allocated Number holding [x] and changes nothing else. *)
Definition returnsNumber (m : M Value) (w : World) (x : float) : Prop :=
  ∃ r, (r ∉ dom (objects w)) ∧ m w = Ok r (set_objects <[r := ObjNum x]> w).

(** [declines m w]: the computation returns the sentinel [vm->unsupported]
    itself and leaves the state as it was. *)
Definition declines (m : M Value) (w : World) : Prop :=
  m w = Ok (unsupported (vm w)) w.

(** The value [num_abs] stores for a receiver holding [value]. *)
Definition absValue (value : float) : float :=
  if (value <? 0)%float then (- value)%float else value.

(** The number [string_contains] stores for a receiver reading [hay] and an
    operand reading [needle]. *)
Definition containsValue (hay needle : list ascii) : float :=
  if bool_decide (length hay = 0) && bool_decide (length needle = 0)
  then toDouble 1
  else toDouble (match findSub needle hay with Some _ => 1 | None => 0 end).

(** The cells of a buffer that holds the C string [text]. *)
Definition cstr (text : string) : list cell :=
  (Some <$> list_ascii_of_string text) ++ [Some NUL].

(** [holdsString w v text]: [v] is a String whose buffer reads [text]. *)
Definition holdsString (w : World) (v : Value) (text : list ascii) : Prop :=
  ∃ p, objects w !! v = Some (ObjString p) ∧
       cellsAt w p ≫= cstring = Some text.

(** [containsGives hay needle x]: in every machine state, on a receiver
    reading [hay] and an operand reading [needle], [string_contains] returns
    a new Number holding [x]. *)
Definition containsGives (hay needle : string) (x : float) : Prop :=
  ∀ (w : World) (args : list Value) (s t : Value),
    args !! 0 = Some s → args !! 1 = Some t →
    holdsString w s (list_ascii_of_string hay) →
    holdsString w t (list_ascii_of_string needle) →
    returnsNumber (string_contains args) w x.

(** The slot a bound primitive occupies. *)
Definition primitiveMethod (prim : Primitive) : Method :=
  {| type := METHOD_PRIMITIVE; primitive := Some prim |}.

(** [boundAt w cls name]: the symbol id of the method name [name] and what
    a lookup at that id in the method table of class [cls] yields. *)
Definition boundAt (w : World) (cls : Value) (name : string)
    : option (nat * Method) :=
  match findSymbol (symbols (vm w)) name, objects w !! cls with
  | Some symbol, Some (ObjClass methods) =>
      Some (symbol, lookupMethod methods symbol)
  | _, _ => None
  end.

(** A class expression that does not read the symbol table, as
    [vm->numClass], [vm->stringClass] and a local variable do not. *)
Definition classExpr (cls : VM → Value) : Prop :=
  ∀ table v, cls (set_symbols table v) = cls v.

(** [steady m]: a run of [m] leaves the fields of [vm] as they are and
    frees no object. *)
Definition steady {A} (m : M A) : Prop :=
  ∀ w a w', m w = Ok a w' →
            vm w' = vm w ∧ dom (objects w) ⊆ dom (objects w').

(** [freshResult m]: the value [m] returns is an object that did not exist
    when [m] started. *)
Definition freshResult (m : M Value) : Prop :=
  ∀ w r w', m w = Ok r w' → r ∉ dom (objects w).




(** The built-in classes exist, as [registerPrimitives] assumes. *)
Definition classesReady (w : World) : Prop :=
  (∃ methods, objects w !! numClass (vm w) = Some (ObjClass methods)) ∧
  (∃ methods, objects w !! stringClass (vm w) = Some (ObjClass methods)).


(** ** Concrete machine states used in the examples *)

(** A text form to run [io_write] with in the examples: the kind of the
    object, for every live object. *)
Definition kindText (w : World) (v : Value) : option (list ascii) :=
  (λ o, list_ascii_of_string
          match objType o with
          | OBJ_NUM => "[num]"
          | OBJ_STRING => "[string]"
          | OBJ_CLASS => "[class]"
          | OBJ_INSTANCE => "[instance]"
          end) <$> objects w !! v.

(** A ["%g"] rendering to run [num_toString] with in the examples. *)
Definition digitText (x : float) : list ascii :=
  list_ascii_of_string (if (x =? 0)%float then "0" else "1").


(** A machine with numbers, strings and an instance already on the heap. *)
Definition sampleWorld : World :=
  {| vm := {| symbols := []; numClass := 1; stringClass := 2;
              unsupported := 12; globalSymbols := []; globals := ∅ |};
     objects :=
       list_to_map
         [ (1%positive, ObjClass ∅); (2%positive, ObjClass ∅);
           (3%positive, ObjNum 6); (4%positive, ObjNum (-1.5));
           (5%positive, ObjNum 0); (6%positive, ObjNum nan);
           (7%positive, ObjString {| block := 1; offset := 0 |});
           (8%positive, ObjString {| block := 2; offset := 0 |});
           (9%positive, ObjString {| block := 3; offset := 0 |});
           (10%positive, ObjString {| block := 4; offset := 0 |});
           (11%positive, ObjClass ∅); (12%positive, ObjInstance 11 ∅) ];
     buffers :=
       list_to_map
         [ (1%positive, cstr "hello"); (2%positive, cstr "ell");
           (3%positive, cstr "xyz"); (4%positive, cstr "") ];
     console := [] |}.

(** A machine with the two built-in classes and nothing else. *)
Definition bareWorld : World :=
  {| vm := {| symbols := []; numClass := 1; stringClass := 2;
              unsupported := 1; globalSymbols := []; globals := ∅ |};
     objects := {[ 1%positive := ObjClass ∅; 2%positive := ObjClass ∅ ]};
     buffers := ∅;
     console := [] |}.

(** ** Vocabulary of the further properties *)

(** [respects R m]: every successful run of [m] takes a state to one related
    to it by [R]. *)
Definition respects (R : World → World → Prop) {A} (m : M A) : Prop :=
  ∀ w a w', m w = Ok a w' → R w w'.

(** Nothing but new objects: the fields of [vm], the buffers and the console
    are as before, and every object that existed is as it was. *)
Definition onlyAllocates (w w' : World) : Prop :=
  vm w' = vm w ∧ objects w ⊆ objects w' ∧
  buffers w' = buffers w ∧ console w' = console w.

(** Nothing but writes to the block [b]. *)
Definition onlyWrites (b : positive) (w w' : World) : Prop :=
  vm w' = vm w ∧ objects w' = objects w ∧ console w' = console w ∧
  dom (buffers w') = dom (buffers w) ∧
  ∀ k, k ≠ b → buffers w' !! k = buffers w !! k.

(** Nothing but output: the console has grown and all else is as before. *)
Definition onlyPrints (w w' : World) : Prop :=
  vm w' = vm w ∧ objects w' = objects w ∧ buffers w' = buffers w ∧
  console w `prefix_of` console w'.

(** Nothing lost: the fields of [vm] and the console are as before, and
    every object and every buffer that existed is as it was. *)
Definition onlyAdds (w w' : World) : Prop :=
  vm w' = vm w ∧ objects w ⊆ objects w' ∧
  buffers w ⊆ buffers w' ∧ console w' = console w.

(** [needle] occurs in [hay] as a run of consecutive bytes. *)
Definition occursIn (needle hay : list ascii) : Prop :=
  ∃ before after, hay = before ++ needle ++ after.

(** [bindsTo w cls name prim]: a lookup of the method name [name] on class
    [cls] finds the primitive [prim]. *)
Definition bindsTo (w : World) (cls : Value) (name : string)
    (prim : Primitive) : Prop :=
  ∃ symbol, boundAt w cls name = Some (symbol, primitiveMethod prim).

(** The state [PRIMITIVE(cls, name, prim)] leaves when [cls] is a class
    with method table [methods]. *)
Definition afterPRIMITIVE (cls : VM → Value) (name : string)
    (prim : Primitive) (methods : gmap nat Method) (w : World) : World :=
  let r := ensureSymbol (symbols (vm w)) name (String.length name) in
  set_objects
    <[cls (vm w) := ObjClass (<[r.2 := primitiveMethod prim]> methods)]>
    (set_vm (set_symbols r.1) w).

(** What the bindings on the built-in classes leave alone: the fields of
    [vm] other than the method symbols, the buffers, the console, the set
    of objects, every object but the two classes, and the id of every
    method name that had one. *)
Definition builtinsRebound (w0 w : World) : Prop :=
  numClass (vm w) = numClass (vm w0) ∧
  stringClass (vm w) = stringClass (vm w0) ∧
  unsupported (vm w) = unsupported (vm w0) ∧
  globalSymbols (vm w) = globalSymbols (vm w0) ∧
  globals (vm w) = globals (vm w0) ∧
  buffers w = buffers w0 ∧ console w = console w0 ∧
  dom (objects w) = dom (objects w0) ∧
  classesReady w ∧
  (∀ v, v ≠ numClass (vm w0) → v ≠ stringClass (vm w0) →
        objects w !! v = objects w0 !! v) ∧
  ∀ name symbol, findSymbol (symbols (vm w0)) name = Some symbol →
                 findSymbol (symbols (vm w)) name = Some symbol.

(** The allocation and the copies of [string_plus], with the size passed to
    [malloc] as a parameter; [string_plus] passes
    [leftLength + rightLength]. *)
Definition concatenateInto (size : nat) (left right : CharPtr)
    (leftLength : nat) : M Value :=
  let! result := malloc size in
  strcpy result left >>
  strcpy {| block := block result; offset := offset result + leftLength |}
         right >>
  makeString result.

(** The C library's [strlen] on a string literal: the bytes before the
    first NUL.  The macros pass [strlen(name)]; for a name without a NUL
    byte, as every name in the source is, that is the length of the
    literal. *)
Fixpoint strlenLiteral (name : string) : nat :=
  match name with
  | EmptyString => 0
  | String c rest => if decide (c = NUL) then 0 else S (strlenLiteral rest)
  end.

(** [sampleWorld] after ["abs"] was bound on the Number class. *)
Definition boundWorld : World :=
  afterPRIMITIVE numClass "abs" primitive_num_abs ∅ sampleWorld.

(** * Properties *)

(** ** Running a computation step by step *)

Lemma bind_ok {A B} (m : M A) (k : A → M B) w a w' :
  m w = Ok a w' → bind m k w = k a w'.
Proof. unfold bind. by intros ->. Qed.

Lemma bind_fault {A B} (m : M A) (k : A → M B) w t :
  m w = Fault t → bind m k w = Fault t.
Proof. unfold bind. by intros ->. Qed.

Lemma bind_assoc {A B C} (m : M A) (f : A → M B) (g : B → M C) w :
  bind (bind m f) g w = bind m (λ a, bind (f a) g) w.
Proof. unfold bind. by destruct (m w). Qed.

Lemma get_ok w : get w = Ok w w.
Proof. done. Qed.

Lemma modify_ok f w : modify f w = Ok tt (f w).
Proof. done. Qed.

Lemma arg_ok args i v w : args !! i = Some v → arg args i w = Ok v w.
Proof. unfold arg. by intros ->. Qed.

Lemma deref_ok v o w : objects w !! v = Some o → deref v w = Ok o w.
Proof. unfold deref, bind, get. by intros ->. Qed.

Lemma typeOf_ok v o w :
  objects w !! v = Some o → typeOf v w = Ok (objType o) w.
Proof. intros H. unfold typeOf. by rewrite (bind_ok _ _ _ _ _ (deref_ok _ _ _ H)). Qed.

Lemma AS_NUM_ok v x w :
  objects w !! v = Some (ObjNum x) → AS_NUM v w = Ok x w.
Proof. intros H. unfold AS_NUM. by rewrite (bind_ok _ _ _ _ _ (deref_ok _ _ _ H)). Qed.

Lemma AS_STRING_ok v p w :
  objects w !! v = Some (ObjString p) → AS_STRING v w = Ok p w.
Proof. intros H. unfold AS_STRING. by rewrite (bind_ok _ _ _ _ _ (deref_ok _ _ _ H)). Qed.

Lemma returnUnsupported_ok w : returnUnsupported w = Ok (unsupported (vm w)) w.
Proof. done. Qed.

Lemma allocate_ok o w :
  allocate o w =
    Ok (fresh (dom (objects w)))
       (set_objects <[fresh (dom (objects w)) := o]> w).
Proof. done. Qed.

Lemma fresh_object w : fresh (dom (objects w)) ∉ dom (objects w).
Proof. apply is_fresh. Qed.

Lemma fresh_object_ne w v o :
  objects w !! v = Some o → fresh (dom (objects w)) ≠ v.
Proof.
  intros H E. apply (fresh_object w). rewrite E. apply elem_of_dom. by rewrite H.
Qed.

(** Rewrite the head of a [bind] with a lemma that evaluates it. *)
Ltac run L := rewrite (bind_ok _ _ _ _ _ L).

Lemma makeNum_returnsNumber x w : returnsNumber (makeNum x) w x.
Proof. eexists. split; [apply fresh_object | apply allocate_ok]. Qed.

(** ** Doubles *)

Lemma zero_SF : Prim2SF 0%float = S754_zero false.
Proof. reflexivity. Qed.

Lemma is_nan_false_SF x : is_nan x = false → Prim2SF x ≠ S754_nan.
Proof.
  unfold is_nan. rewrite FloatAxioms.eqb_spec. intros H E. rewrite E in H. discriminate.
Qed.

Lemma SF_is_nan x : Prim2SF x = S754_nan → is_nan x = true.
Proof. intros E. unfold is_nan. by rewrite FloatAxioms.eqb_spec, E. Qed.

Lemma SF_is_infinity x s : Prim2SF x = S754_infinity s → is_infinity x = true.
Proof.
  intros E. unfold is_infinity. by rewrite FloatAxioms.eqb_spec, FloatAxioms.abs_spec, E.
Qed.

Lemma is_zero_SF x : is_zero x = true → ∃ s, Prim2SF x = S754_zero s.
Proof.
  unfold is_zero. rewrite FloatAxioms.eqb_spec.
  change (Prim2SF PrimFloat.zero) with (S754_zero false).
  destruct (Prim2SF x) as [s| | |s m e]; try discriminate; eauto.
  - by destruct s.
  - by destruct s.
Qed.

(** Division by a zero gives an infinity or a NaN. *)
Lemma divide_by_zero x y :
  is_zero y = true → is_nan (x / y) || is_infinity (x / y) = true.
Proof.
  intros [s Hy]%is_zero_SF.
  assert (Prim2SF (x / y) = S754_nan ∨ ∃ s', Prim2SF (x / y) = S754_infinity s')
    as [E|[s' E]].
  { rewrite FloatAxioms.div_spec, Hy. destruct (Prim2SF x); simpl; eauto. }
  - by rewrite (SF_is_nan _ E).
  - rewrite (SF_is_infinity _ _ E). apply orb_true_r.
Qed.

Lemma SFcompare_finite_refl s m e :
  SFcompare (S754_finite s m e) (S754_finite s m e) = Some Eq.
Proof.
  simpl. rewrite Z.compare_refl, Pos.compare_cont_refl. by destruct s.
Qed.

Lemma absValue_nonneg x : is_nan x = false → (0 <=? absValue x)%float = true.
Proof.
  intros Hn%is_nan_false_SF. unfold absValue.
  destruct (x <? 0)%float eqn:Hlt; rewrite FloatAxioms.leb_spec, zero_SF;
    rewrite FloatAxioms.ltb_spec, zero_SF in Hlt; [rewrite FloatAxioms.opp_spec|];
    destruct (Prim2SF x) as [s| [] | |[] m e]; try done; by destruct s.
Qed.

Lemma absValue_of_nonneg x : (0 <=? x)%float = true → absValue x = x.
Proof.
  intros H. unfold absValue.
  rewrite FloatAxioms.leb_spec, zero_SF in H.
  destruct (x <? 0)%float eqn:Hlt; [|done].
  rewrite FloatAxioms.ltb_spec, zero_SF in Hlt.
  destruct (Prim2SF x) as [s| [] | |[] m e]; try done; by destruct s.
Qed.

Lemma absValue_of_neg x : (x <? 0)%float = true → absValue x = (- x)%float.
Proof. intros H. unfold absValue. by rewrite H. Qed.

Lemma eqb_refl_of_nonneg x : (0 <=? x)%float = true → (x =? x)%float = true.
Proof.
  rewrite FloatAxioms.leb_spec, FloatAxioms.eqb_spec, zero_SF. unfold SFeqb, SFleb.
  destruct (Prim2SF x) as [s| [] | |[] m e]; try done.
  intros _. by rewrite SFcompare_finite_refl.
Qed.

Lemma eqb_opp_refl_of_neg x :
  (x <? 0)%float = true → (- x =? - x)%float = true.
Proof.
  rewrite FloatAxioms.ltb_spec, FloatAxioms.eqb_spec, FloatAxioms.opp_spec, zero_SF. unfold SFeqb, SFltb.
  destruct (Prim2SF x) as [s| [] | |[] m e]; try done.
  all: intros _; simpl SFopp; by rewrite ?SFcompare_finite_refl.
Qed.

(** ** Type mismatch in a binary primitive *)

Lemma mismatch_step w args x o (tag : ObjType) (k : Value → M Value) :
  args !! 1 = Some x → objects w !! x = Some o → objType o ≠ tag →
  (let! a1 := arg args 1 in
   let! t := typeOf a1 in
   if decide (t ≠ tag) then returnUnsupported else k a1) w
  = Ok (unsupported (vm w)) w.
Proof.
  intros Ha Ho Ht.
  run (arg_ok _ _ _ w Ha). run (typeOf_ok _ _ w Ho).
  by rewrite decide_True.
Qed.

(** C1.  When the second operand is not a Number, [num_plus], [num_minus],
    [num_multiply] and [num_divide] return the sentinel [vm->unsupported]
    itself, and when it is not a String, [string_plus] does; the receiver
    (any value, so in particular every Number or String) is not looked at,
    the state is unchanged and no fault is raised. *)
Theorem mismatch_returns_unsupported (w : World) (a x : Value)
    (rest : list Value) (o : Obj) :
  objects w !! x = Some o →
  (objType o ≠ OBJ_NUM →
     declines (num_plus (a :: x :: rest)) w ∧
     declines (num_minus (a :: x :: rest)) w ∧
     declines (num_multiply (a :: x :: rest)) w ∧
     declines (num_divide (a :: x :: rest)) w) ∧
  (objType o ≠ OBJ_STRING → declines (string_plus (a :: x :: rest)) w).
Proof.
  intros Ho.
  unfold declines, num_plus, num_minus, num_multiply, num_divide, string_plus.
  split; [intros Ht; repeat split | intros Ht];
    by eapply mismatch_step.
Qed.

Lemma mismatch_returns_unsupported_witness :
  (declines (num_plus [3; 7]%positive) sampleWorld ∧
   declines (num_minus [3; 7]%positive) sampleWorld ∧
   declines (num_multiply [3; 7]%positive) sampleWorld ∧
   declines (num_divide [3; 7]%positive) sampleWorld) ∧
  declines (string_plus [7; 3]%positive) sampleWorld.
Proof.
  split.
  - apply (mismatch_returns_unsupported sampleWorld 3 7 []
             (ObjString {| block := 1; offset := 0 |})); [reflexivity|].
    simpl. discriminate.
  - apply (mismatch_returns_unsupported sampleWorld 7 3 [] (ObjNum 6));
      [reflexivity|].
    simpl. discriminate.
Defined.

(** ** Arithmetic on two Numbers *)

Lemma binary_num_step w args a b x y (f : float → float → float) :
  args !! 0 = Some a → args !! 1 = Some b →
  objects w !! a = Some (ObjNum x) → objects w !! b = Some (ObjNum y) →
  returnsNumber
    (let! a1 := arg args 1 in
     let! t := typeOf a1 in
     if decide (t ≠ OBJ_NUM) then returnUnsupported else
     let! a0 := arg args 0 in
     let! x := AS_NUM a0 in
     let! y := AS_NUM a1 in
     makeNum (f x y)) w (f x y).
Proof.
  intros Ha Hb Hx Hy. unfold returnsNumber.
  run (arg_ok _ _ _ w Hb). run (typeOf_ok _ _ w Hy).
  rewrite decide_False by (simpl; tauto).
  run (arg_ok _ _ _ w Ha). run (AS_NUM_ok _ _ w Hx). run (AS_NUM_ok _ _ w Hy).
  apply makeNum_returnsNumber.
Qed.

(** C2.  On two Numbers holding [x] and [y] the four arithmetic primitives
    return a new Number holding the float64 sum, difference, product and
    quotient; nothing faults, and a quotient by a zero is an infinity or a
    NaN. *)
Theorem arithmetic_on_numbers (w : World) (args : list Value) (a b : Value)
    (x y : float) :
  args !! 0 = Some a → args !! 1 = Some b →
  objects w !! a = Some (ObjNum x) → objects w !! b = Some (ObjNum y) →
  returnsNumber (num_plus args) w (x + y) ∧
  returnsNumber (num_minus args) w (x - y) ∧
  returnsNumber (num_multiply args) w (x * y) ∧
  returnsNumber (num_divide args) w (x / y) ∧
  (is_zero y = true → is_nan (x / y) || is_infinity (x / y) = true).
Proof.
  intros Ha Hb Hx Hy.
  unfold num_plus, num_minus, num_multiply, num_divide. repeat split.
  - by apply (binary_num_step w args a b x y PrimFloat.add).
  - by apply (binary_num_step w args a b x y PrimFloat.sub).
  - by apply (binary_num_step w args a b x y PrimFloat.mul).
  - by apply (binary_num_step w args a b x y PrimFloat.div).
  - apply divide_by_zero.
Qed.

Lemma arithmetic_on_numbers_witness :
  returnsNumber (num_plus [3; 4]%positive) sampleWorld 4.5 ∧
  returnsNumber (num_minus [3; 4]%positive) sampleWorld 7.5 ∧
  returnsNumber (num_multiply [3; 4]%positive) sampleWorld (-9) ∧
  returnsNumber (num_divide [3; 4]%positive) sampleWorld (-4) ∧
  returnsNumber (num_divide [3; 5]%positive) sampleWorld infinity ∧
  returnsNumber (num_divide [5; 5]%positive) sampleWorld nan.
Proof.
  pose proof (arithmetic_on_numbers sampleWorld [3; 4]%positive 3 4 6 (-1.5)
                eq_refl eq_refl eq_refl eq_refl) as (H1 & H2 & H3 & H4 & _).
  pose proof (arithmetic_on_numbers sampleWorld [3; 5]%positive 3 5 6 0
                eq_refl eq_refl eq_refl eq_refl) as (_ & _ & _ & H5 & _).
  pose proof (arithmetic_on_numbers sampleWorld [5; 5]%positive 5 5 0 0
                eq_refl eq_refl eq_refl eq_refl) as (_ & _ & _ & H6 & _).
  repeat split; assumption.
Defined.

(** ** Absolute value *)

Lemma num_abs_returns w args a x :
  args !! 0 = Some a → objects w !! a = Some (ObjNum x) →
  returnsNumber (num_abs args) w (absValue x).
Proof.
  intros Ha Hx. unfold num_abs.
  unfold returnsNumber. run (arg_ok _ _ _ w Ha). run (AS_NUM_ok _ _ w Hx).
  apply makeNum_returnsNumber.
Qed.

(** C5, as the code has it.  For every Number holding an [x] that is not a
    NaN, [num_abs] returns a new Number holding [r] with [r >= 0], with
    [r == x] when [x >= 0] and [r == -x] when [x < 0], the comparisons being
    those of C on doubles. *)
Theorem num_abs_of_ordered (w : World) (args : list Value) (a : Value)
    (x : float) :
  args !! 0 = Some a → objects w !! a = Some (ObjNum x) →
  is_nan x = false →
  ∃ r, returnsNumber (num_abs args) w r ∧
       (0 <=? r)%float = true ∧
       ((0 <=? x)%float = true → (r =? x)%float = true) ∧
       ((x <? 0)%float = true → (r =? - x)%float = true).
Proof.
  intros Ha Hx Hn. exists (absValue x). split; [by eapply num_abs_returns|].
  split; [by apply absValue_nonneg|]. split.
  - intros H. rewrite (absValue_of_nonneg _ H). by apply eqb_refl_of_nonneg.
  - intros H. rewrite (absValue_of_neg _ H). by apply eqb_opp_refl_of_neg.
Qed.

Lemma num_abs_of_ordered_witness :
  ∃ r, returnsNumber (num_abs [4%positive]) sampleWorld r ∧
       (0 <=? r)%float = true ∧
       ((0 <=? -1.5)%float = true → (r =? -1.5)%float = true) ∧
       ((-1.5 <? 0)%float = true → (r =? - -1.5)%float = true).
Proof.
  apply (num_abs_of_ordered sampleWorld [4%positive] 4 (-1.5));
    reflexivity.
Defined.

(** C5 as stated fails for a NaN receiver: [num_abs] returns a Number
    holding NaN, and [NaN >= 0] is false. *)
Lemma num_abs_of_nan_not_nonneg :
  ∃ r, returnsNumber (num_abs [6%positive]) sampleWorld r ∧
       (0 <=? r)%float = false.
Proof.
  exists nan. split; [|reflexivity].
  exact (num_abs_returns sampleWorld [6%positive] 6 nan eq_refl eq_refl).
Qed.

(** ** Strings *)

Lemma readString_ok p text w :
  cellsAt w p ≫= cstring = Some text → readString p w = Ok text w.
Proof. unfold readString, bind, get. by intros ->. Qed.

Lemma strlen_ok p text w :
  cellsAt w p ≫= cstring = Some text → strlen p w = Ok (length text) w.
Proof. intros H. unfold strlen. by run (readString_ok _ _ _ H). Qed.

Lemma strstr_ok hay needle h n w :
  cellsAt w hay ≫= cstring = Some h → cellsAt w needle ≫= cstring = Some n →
  strstr hay needle w =
    Ok ((λ i, {| block := block hay; offset := offset hay + i |})
          <$> findSub n h) w.
Proof.
  intros Hh Hn. unfold strstr.
  run (readString_ok _ _ _ Hh). by run (readString_ok _ _ _ Hn).
Qed.

Lemma findSub_empty hay : findSub [] hay = Some 0.
Proof. by destruct hay. Qed.

Lemma toDouble_1 : toDouble 1 = 1%float.
Proof. reflexivity. Qed.

Lemma toDouble_0 : toDouble 0 = 0%float.
Proof. reflexivity. Qed.

Lemma containsValue_flag hay needle :
  containsValue hay needle = 1%float ∨ containsValue hay needle = 0%float.
Proof.
  unfold containsValue.
  destruct (_ && _); [by left|]. destruct (findSub needle hay); auto.
Qed.

Lemma containsValue_empty_needle hay : containsValue hay [] = 1%float.
Proof.
  unfold containsValue. rewrite findSub_empty. by destruct (_ && _).
Qed.

(** On two Strings [string_contains] returns a new Number holding
    [containsValue]. *)
Lemma string_contains_returns w args s t hay needle :
  args !! 0 = Some s → args !! 1 = Some t →
  holdsString w s hay → holdsString w t needle →
  returnsNumber (string_contains args) w (containsValue hay needle).
Proof.
  intros Hs Ht (ps & Hps & Hhay) (pt & Hpt & Hneedle).
  unfold returnsNumber, string_contains, containsValue.
  run (arg_ok _ _ _ w Hs). run (AS_STRING_ok _ _ w Hps).
  run (arg_ok _ _ _ w Ht). run (AS_STRING_ok _ _ w Hpt).
  run (strlen_ok _ _ w Hhay).
  assert ((if decide (length hay = 0)
           then let! m := strlen pt in ret (bool_decide (m = 0))
           else ret false) w
          = Ok (bool_decide (length hay = 0)
                && bool_decide (length needle = 0)) w) as Hboth.
  { destruct (decide (length hay = 0)) as [E|E].
    - run (strlen_ok _ _ w Hneedle). by rewrite (bool_decide_eq_true_2 _ E).
    - by rewrite (bool_decide_eq_false_2 _ E). }
  run Hboth.
  destruct (_ && _); [apply makeNum_returnsNumber|].
  run (strstr_ok _ _ _ _ w Hhay Hneedle).
  destruct (findSub needle hay); apply makeNum_returnsNumber.
Qed.

(** C6.  On Strings, [contains("", "")] and [contains("hello", "ell")]
    give the Number 1 (true) and [contains("hello", "xyz")] gives the
    Number 0 (false), whatever the machine state and wherever the two
    strings are stored. *)
Theorem string_contains_examples :
  containsGives "" "" 1 ∧
  containsGives "hello" "ell" 1 ∧
  containsGives "hello" "xyz" 0.
Proof.
  repeat split; intros w args s t Hs Ht Hhay Hneedle;
    exact (string_contains_returns w args s t _ _ Hs Ht Hhay Hneedle).
Qed.

Lemma sampleWorld_holdsString v b text :
  objects sampleWorld !! v = Some (ObjString {| block := b; offset := 0 |}) →
  buffers sampleWorld !! b = Some (cstr text) →
  cstring (cstr text) = Some (list_ascii_of_string text) →
  holdsString sampleWorld v (list_ascii_of_string text).
Proof.
  intros Hv Hb Ht. eexists. split; [exact Hv|].
  unfold cellsAt. simpl block. rewrite Hb. exact Ht.
Defined.

Lemma string_contains_examples_witness :
  returnsNumber (string_contains [10; 10]%positive) sampleWorld 1 ∧
  returnsNumber (string_contains [7; 8]%positive) sampleWorld 1 ∧
  returnsNumber (string_contains [7; 9]%positive) sampleWorld 0.
Proof.
  destruct string_contains_examples as (H1 & H2 & H3).
  repeat split.
  - apply (H1 sampleWorld [10; 10]%positive 10%positive 10%positive);
      try reflexivity;
      by apply (sampleWorld_holdsString 10%positive 4%positive "").
  - apply (H2 sampleWorld [7; 8]%positive 7%positive 8%positive);
      try reflexivity.
    + by apply (sampleWorld_holdsString 7%positive 1%positive "hello").
    + by apply (sampleWorld_holdsString 8%positive 2%positive "ell").
  - apply (H3 sampleWorld [7; 9]%positive 7%positive 9%positive);
      try reflexivity.
    + by apply (sampleWorld_holdsString 7%positive 1%positive "hello").
    + by apply (sampleWorld_holdsString 9%positive 3%positive "xyz").
Defined.

(** C8.  For every String receiver, [contains] with an empty String as its
    operand gives the Number 1: [strstr] finds the empty string at the
    start of any string. *)
Theorem string_contains_empty_needle (w : World) (args : list Value)
    (s t : Value) (hay : list ascii) :
  args !! 0 = Some s → args !! 1 = Some t →
  holdsString w s hay → holdsString w t [] →
  returnsNumber (string_contains args) w 1.
Proof.
  intros Hs Ht Hhay Hneedle.
  rewrite <- (containsValue_empty_needle hay).
  by eapply string_contains_returns.
Qed.

Lemma string_contains_empty_needle_witness :
  returnsNumber (string_contains [7; 10]%positive) sampleWorld 1.
Proof.
  apply (string_contains_empty_needle sampleWorld [7; 10]%positive
           7%positive 10%positive (list_ascii_of_string "hello"));
    try reflexivity.
  - by apply (sampleWorld_holdsString 7%positive 1%positive "hello").
  - by apply (sampleWorld_holdsString 10%positive 4%positive "").
Defined.

(** The search and the occurrence of the operand in the receiver. *)
Lemma isPrefix_spec needle hay :
  isPrefix needle hay = true ↔ needle `prefix_of` hay.
Proof.
  revert hay. induction needle as [|n needle IH]; intros hay; simpl.
  - split; [intros _; apply prefix_nil | done].
  - destruct hay as [|h hay].
    + split; [done | intros H; by apply prefix_nil_inv in H].
    + destruct (decide (n = h)) as [->|Hne].
      * rewrite IH. split; [apply prefix_cons | apply prefix_cons_inv_2].
      * split; [done | intros H%prefix_cons_inv_1; done].
Qed.

Lemma findSub_Some needle hay i :
  findSub needle hay = Some i →
  ∃ after, hay = take i hay ++ needle ++ after ∧ i ≤ length hay.
Proof.
  revert i. induction hay as [|h hay IH]; intros i; simpl.
  - destruct (isPrefix needle []) eqn:Hp; [|done].
    intros [= <-]. apply isPrefix_spec in Hp as [after ->].
    exists after. split; [done | simpl; lia].
  - destruct (isPrefix needle (h :: hay)) eqn:Hp.
    + intros [= <-]. apply isPrefix_spec in Hp as [after ->].
      exists after. split; [done | simpl; lia].
    + destruct (findSub needle hay) as [j|] eqn:Hj; [|done].
      intros [= <-]. destruct (IH j eq_refl) as (after & Hhay & Hle).
      exists after. simpl. split; [by rewrite <- Hhay | lia].
Qed.

Lemma findSub_None needle hay :
  findSub needle hay = None → ¬ occursIn needle hay.
Proof.
  induction hay as [|h hay IH]; simpl.
  - destruct (isPrefix needle []) eqn:Hp; [done|]. intros _ (b & a & E).
    symmetry in E. apply app_eq_nil in E as [-> [-> _]%app_eq_nil].
    discriminate Hp.
  - destruct (isPrefix needle (h :: hay)) eqn:Hp; [done|].
    destruct (findSub needle hay) eqn:Hj; [done|]. intros _ (b & a & E).
    destruct b as [|b0 b].
    + assert (isPrefix needle (h :: hay) = true) as Hp'
        by (apply isPrefix_spec; exists a; by rewrite E).
      congruence.
    + injection E as _ E. apply (IH eq_refl). by exists b, a.
Qed.

Lemma containsValue_occurs hay needle :
  (occursIn needle hay → containsValue hay needle = 1%float) ∧
  (¬ occursIn needle hay → containsValue hay needle = 0%float).
Proof.
  unfold containsValue.
  destruct (findSub needle hay) as [i|] eqn:Hf.
  - split; [by destruct (_ && _)|]. intros Hno. exfalso. apply Hno.
    destruct (findSub_Some _ _ _ Hf) as (after & E & _).
    by exists (take i hay), after.
  - pose proof (findSub_None _ _ Hf) as Hno. split; [done|]. intros _.
    destruct (bool_decide (length hay = 0)) eqn:E1; [|done].
    destruct (bool_decide (length needle = 0)) eqn:E2; [|done].
    exfalso. apply Hno.
    apply bool_decide_eq_true_1, nil_length_inv in E1, E2. subst.
    by exists [], [].
Qed.

Lemma AS_STRING_wrong v o w :
  objects w !! v = Some o → objType o ≠ OBJ_STRING →
  AS_STRING v w = Fault WrongVariant.
Proof.
  intros H Ht. unfold AS_STRING. run (deref_ok _ _ _ H). by destruct o.
Qed.

Lemma returnsNumber_lookup m w x :
  returnsNumber m w x →
  ∃ r w', m w = Ok r w' ∧ objects w' !! r = Some (ObjNum x) ∧
          (r ∉ dom (objects w)) ∧ vm w' = vm w.
Proof.
  intros (r & Hr & E). exists r, (set_objects <[r := ObjNum x]> w).
  repeat split; [done| |done]. simpl. apply lookup_insert_eq.
Qed.

(** C9.  On two Strings [string_contains] returns a Number that holds
    exactly 1 when the operand is present in the receiver (it occurs there
    as a run of consecutive bytes) and exactly 0 when it is absent, and
    that Number is a new object, so it is never the sentinel (which is a
    live object once it has been created).  The second operand is taken as
    a String without a test of its tag: when it is not a String the
    primitive does not return the sentinel, it runs into the forbidden
    extraction. *)
Theorem string_contains_is_flag (w : World) (args : list Value)
    (s t : Value) (hay needle : list ascii) :
  args !! 0 = Some s → args !! 1 = Some t →
  holdsString w s hay → holdsString w t needle →
  unsupported (vm w) ∈ dom (objects w) →
  (∃ r w', string_contains args w = Ok r w' ∧
           (occursIn needle hay → objects w' !! r = Some (ObjNum 1)) ∧
           (¬ occursIn needle hay → objects w' !! r = Some (ObjNum 0)) ∧
           (objects w' !! r = Some (ObjNum 1) ∨
            objects w' !! r = Some (ObjNum 0)) ∧
           r ≠ unsupported (vm w')) ∧
  (∀ x o rest, objects w !! x = Some o → objType o ≠ OBJ_STRING →
               string_contains (s :: x :: rest) w = Fault WrongVariant).
Proof.
  intros Hs Ht Hhay Hneedle Hu. split.
  - destruct (returnsNumber_lookup _ _ _
                (string_contains_returns w args s t _ _ Hs Ht Hhay Hneedle))
      as (r & w' & E & Hr & Hfresh & Hvm).
    destruct (containsValue_occurs hay needle) as [Hin Hout].
    exists r, w'. split; [done|].
    split; [intros Ho; by rewrite <- (Hin Ho)|].
    split; [intros Ho; by rewrite <- (Hout Ho)|]. split.
    + destruct (containsValue_flag hay needle) as [F|F]; rewrite F in Hr; auto.
    + rewrite Hvm. intros ->. contradiction.
  - intros x o rest Hx Ho. destruct Hhay as (ps & Hps & _).
    unfold string_contains.
    run (arg_ok (s :: x :: rest) 0 s w eq_refl). run (AS_STRING_ok _ _ w Hps).
    run (arg_ok (s :: x :: rest) 1 x w eq_refl).
    by rewrite (bind_fault _ _ _ _ (AS_STRING_wrong _ _ w Hx Ho)).
Qed.

Lemma sampleWorld_sentinelLive :
  unsupported (vm sampleWorld) ∈ dom (objects sampleWorld).
Proof.
  exact (proj2 (elem_of_dom _ _) (mk_is_Some _ (ObjInstance 11 ∅) eq_refl)).
Defined.

Lemma string_contains_is_flag_witness :
  (∃ r w', string_contains [7; 8]%positive sampleWorld = Ok r w' ∧
           objects w' !! r = Some (ObjNum 1) ∧
           r ≠ unsupported (vm w')) ∧
  (∃ r w', string_contains [7; 9]%positive sampleWorld = Ok r w' ∧
           objects w' !! r = Some (ObjNum 0) ∧
           r ≠ unsupported (vm w')) ∧
  string_contains [7; 3]%positive sampleWorld = Fault WrongVariant.
Proof.
  destruct (string_contains_is_flag sampleWorld [7; 8]%positive
              7%positive 8%positive
              (list_ascii_of_string "hello") (list_ascii_of_string "ell")
              eq_refl eq_refl
              (sampleWorld_holdsString 7%positive 1%positive "hello"
                 eq_refl eq_refl eq_refl)
              (sampleWorld_holdsString 8%positive 2%positive "ell"
                 eq_refl eq_refl eq_refl)
              sampleWorld_sentinelLive)
    as [(r1 & w1 & E1 & Hin1 & _ & _ & Hne1) Hwrong].
  destruct (string_contains_is_flag sampleWorld [7; 9]%positive
              7%positive 9%positive
              (list_ascii_of_string "hello") (list_ascii_of_string "xyz")
              eq_refl eq_refl
              (sampleWorld_holdsString 7%positive 1%positive "hello"
                 eq_refl eq_refl eq_refl)
              (sampleWorld_holdsString 9%positive 3%positive "xyz"
                 eq_refl eq_refl eq_refl)
              sampleWorld_sentinelLive)
    as [(r0 & w0 & E0 & _ & Hout0 & _ & Hne0) _].
  split; [|split].
  - exists r1, w1. split; [exact E1|]. split; [|exact Hne1]. apply Hin1.
    exists (list_ascii_of_string "h"), (list_ascii_of_string "o").
    reflexivity.
  - exists r0, w0. split; [exact E0|]. split; [|exact Hne0]. apply Hout0.
    apply findSub_None. reflexivity.
  - apply (Hwrong 3%positive (ObjNum 6) []); [reflexivity|].
    simpl. discriminate.
Defined.

(** ** Concatenation *)

Lemma malloc_ok size w :
  malloc size w =
    Ok {| block := fresh (dom (buffers w)); offset := 0 |}
       (set_buffers <[fresh (dom (buffers w)) := replicate size None]> w).
Proof. done. Qed.

Lemma cellsAt_block w p text :
  cellsAt w p ≫= cstring = Some text → block p ∈ dom (buffers w).
Proof.
  unfold cellsAt. intros H. apply elem_of_dom.
  destruct (buffers w !! block p); [by eexists | discriminate].
Qed.

Lemma cellsAt_fresh_ne w p text :
  cellsAt w p ≫= cstring = Some text → block p ≠ fresh (dom (buffers w)).
Proof.
  intros H%cellsAt_block E. rewrite E in H. by apply is_fresh in H.
Qed.

Lemma cellsAt_frame w b cells p :
  block p ≠ b → cellsAt (set_buffers <[b := cells]> w) p = cellsAt w p.
Proof. intros H. unfold cellsAt. simpl. by rewrite lookup_insert_ne. Qed.

Lemma overlaps_other_block dst src n :
  block dst ≠ block src → overlaps dst src n = false.
Proof. intros H. apply bool_decide_eq_false_2. by intros [? _]. Qed.

Lemma store_ok p bs cells w :
  buffers w !! block p = Some cells →
  offset p + length bs ≤ length cells →
  store p bs w =
    Ok tt (set_buffers
             <[block p := take (offset p) cells ++ (Some <$> bs)
                            ++ drop (offset p + length bs) cells]> w).
Proof.
  intros Hb Hle. unfold store, bind, get. rewrite Hb.
  by rewrite decide_True.
Qed.

Lemma store_overrun p bs cells w :
  buffers w !! block p = Some cells →
  length cells < offset p + length bs →
  store p bs w = Fault OutOfBounds.
Proof.
  intros Hb Hlt. unfold store, bind, get. rewrite Hb.
  by rewrite decide_False by lia.
Qed.

Lemma strcpy_ok dst src text cells w :
  cellsAt w src ≫= cstring = Some text → block dst ≠ block src →
  buffers w !! block dst = Some cells →
  offset dst + S (length text) ≤ length cells →
  strcpy dst src w =
    Ok dst (set_buffers
              <[block dst := take (offset dst) cells
                               ++ (Some <$> (text ++ [NUL]))
                               ++ drop (offset dst + S (length text)) cells]>
              w).
Proof.
  intros Hsrc Hne Hb Hle. unfold strcpy. run (readString_ok _ _ _ Hsrc).
  rewrite (overlaps_other_block _ _ _ Hne).
  assert (length (text ++ [NUL]) = S (length text)) as Hlen
    by (rewrite length_app; simpl; lia).
  rewrite (bind_ok _ _ _ _ _ (store_ok dst (text ++ [NUL]) cells w Hb
                                 ltac:(rewrite Hlen; exact Hle))).
  by rewrite Hlen.
Qed.

Lemma strcpy_overrun dst src text cells w :
  cellsAt w src ≫= cstring = Some text → block dst ≠ block src →
  buffers w !! block dst = Some cells →
  length cells < offset dst + S (length text) →
  strcpy dst src w = Fault OutOfBounds.
Proof.
  intros Hsrc Hne Hb Hlt. unfold strcpy. run (readString_ok _ _ _ Hsrc).
  rewrite (overlaps_other_block _ _ _ Hne).
  apply bind_fault, (store_overrun _ _ cells); [done|].
  rewrite length_app. simpl. lia.
Qed.

Lemma cstring_no_NUL cells text : cstring cells = Some text → NUL ∉ text.
Proof.
  revert text. induction cells as [|[c|] rest IH]; intros text; simpl;
    try discriminate.
  destruct (decide (c = NUL)) as [->|Hc].
  - intros [= <-]. apply not_elem_of_nil.
  - destruct (cstring rest) as [t|]; simpl; [|discriminate].
    intros [= <-]. apply not_elem_of_cons. split; [done | by apply IH].
Qed.

Lemma cellsAt_no_NUL w p text :
  cellsAt w p ≫= cstring = Some text → NUL ∉ text.
Proof.
  destruct (cellsAt w p) as [cells|]; simpl; [|discriminate].
  apply cstring_no_NUL.
Qed.

Lemma cstring_app text rest :
  NUL ∉ text →
  cstring ((Some <$> text) ++ Some NUL :: rest) = Some text.
Proof.
  induction text as [|c text IH]; intros Hn; [done|]. cbn [fmap list_fmap app cstring].
  - apply not_elem_of_cons in Hn as [Hc Hn].
    rewrite decide_False by done. by rewrite (IH Hn).
Qed.

(** The two [strcpy] calls of [string_plus] on a destination block of [n]
    bytes: they stay inside the block exactly when it has room for both
    strings and the terminator, and then leave the concatenation in it. *)
Lemma two_strcpy w b cells left right ls rs :
  buffers w !! b = Some cells →
  cellsAt w left ≫= cstring = Some ls → block left ≠ b →
  cellsAt w right ≫= cstring = Some rs → block right ≠ b →
  let result := {| block := b; offset := 0 |} in
  let copy :=
    strcpy result left >>
    strcpy {| block := block result; offset := offset result + length ls |}
           right in
  (length cells ≤ length ls + length rs → copy w = Fault OutOfBounds) ∧
  (length ls + length rs < length cells →
     ∃ w', copy w = Ok {| block := b; offset := length ls |} w' ∧
           cellsAt w' result ≫= cstring = Some (ls ++ rs) ∧
           objects w' = objects w ∧ vm w' = vm w ∧
           dom (buffers w') = dom (buffers w)).
Proof.
  intros Hb Hl Hlb Hr Hrb. cbv zeta. simpl block. simpl offset.
  set (result := {| block := b; offset := 0 |}).
  assert (block result ≠ block left) as Hlb'
    by (intros E; apply Hlb; symmetry; exact E).
  destruct (decide (S (length ls) ≤ length cells)) as [Hfit|Hfit].
  2:{ split; [intros _|lia]. apply bind_fault.
      apply (strcpy_overrun result left ls cells); simpl; [done|done|done|lia]. }
  pose proof (strcpy_ok result left ls cells w Hl
                Hlb' Hb ltac:(simpl; lia)) as H1.
  simpl in H1. run H1. clear H1.
  set (cells1 := (Some <$> ls ++ [NUL]) ++ drop (S (length ls)) cells).
  set (w1 := set_buffers <[b := cells1]> w).
  assert (length cells1 = length cells) as Hlen1.
  { unfold cells1. rewrite length_app, length_fmap, length_app, length_drop.
    simpl. lia. }
  assert (buffers w1 !! b = Some cells1) as Hb1
    by (unfold w1; simpl; apply lookup_insert_eq).
  assert (cellsAt w1 right ≫= cstring = Some rs) as Hr1
    by (unfold w1; by rewrite cellsAt_frame).
  split; intros Hn.
  - apply (strcpy_overrun _ right rs cells1); simpl; [done| |done|lia].
    intros E; apply Hrb; symmetry; exact E.
  - change (0 + length ls) with (length ls).
    rewrite (strcpy_ok {| block := b; offset := length ls |} right rs
               cells1 w1 Hr1
               ltac:(intros E; apply Hrb; symmetry; exact E)
               Hb1 ltac:(simpl; lia)).
    simpl. eexists. split; [reflexivity|].
    split; [|split; [done|split; [done|]]].
    + unfold cellsAt. simpl. rewrite lookup_insert_eq. simpl.
      rewrite drop_0.
      assert (take (length ls) cells1 = Some <$> ls) as ->.
      { unfold cells1. rewrite fmap_app, <- app_assoc.
        apply take_app_length'. by rewrite length_fmap. }
      rewrite (fmap_app _ rs), <- app_assoc, app_assoc, <- fmap_app.
      apply cstring_app, not_elem_of_app.
      split; by eapply cellsAt_no_NUL.
    + unfold w1. simpl. rewrite !dom_insert_L.
      assert (b ∈ dom (buffers w)) as Hin by (apply elem_of_dom; by eexists).
      apply set_eq. intros k. rewrite !elem_of_union, elem_of_singleton.
      split; [intros [->|[->|Hk]]; assumption | auto].
Qed.

(** C3, what the code does.  On two Strings [string_plus] allocates
    [leftLength + rightLength] bytes and then copies both strings with
    their terminators, so the last [strcpy] writes one byte past the end of
    the block: the call leaves defined behaviour on every pair of
    Strings. *)
Theorem string_plus_overruns (w : World) (args : list Value) (s t : Value)
    (ls rs : list ascii) :
  args !! 0 = Some s → args !! 1 = Some t →
  holdsString w s ls → holdsString w t rs →
  string_plus args w = Fault OutOfBounds.
Proof.
  intros Hs Ht (left & Hleft & Hls) (right & Hright & Hrs).
  unfold string_plus.
  run (arg_ok _ _ _ w Ht). run (typeOf_ok _ _ w Hright).
  rewrite decide_False by (simpl; tauto).
  run (arg_ok _ _ _ w Hs).
  run (AS_STRING_ok _ _ w Hleft). run (AS_STRING_ok _ _ w Hright).
  run (strlen_ok _ _ w Hls). run (strlen_ok _ _ w Hrs).
  run (malloc_ok (length ls + length rs) w).
  set (b := fresh (dom (buffers w))).
  set (cells := replicate (length ls + length rs) None).
  set (w1 := set_buffers <[b := cells]> w).
  rewrite <- (bind_assoc (strcpy _ left) (λ _, strcpy _ right)
                (λ _, makeString _)).
  apply bind_fault.
  assert (block left ≠ b) as Hlb by (by eapply cellsAt_fresh_ne).
  assert (block right ≠ b) as Hrb by (by eapply cellsAt_fresh_ne).
  apply (two_strcpy w1 b cells left right ls rs).
  - unfold w1. simpl. apply lookup_insert_eq.
  - unfold w1. by rewrite cellsAt_frame.
  - done.
  - unfold w1. by rewrite cellsAt_frame.
  - done.
  - unfold cells. by rewrite length_replicate.
Qed.

Lemma string_plus_overruns_witness :
  string_plus [7; 8]%positive sampleWorld = Fault OutOfBounds.
Proof.
  apply (string_plus_overruns sampleWorld [7; 8]%positive 7%positive
           8%positive (list_ascii_of_string "hello")
           (list_ascii_of_string "ell")); try reflexivity.
  - by apply (sampleWorld_holdsString 7%positive 1%positive "hello").
  - by apply (sampleWorld_holdsString 8%positive 2%positive "ell").
Defined.

(** ** Binding primitives *)

Lemma substring_all (name : string) :
  substring 0 (String.length name) name = name.
Proof. induction name as [|c name IH]; simpl; [done | by rewrite IH]. Qed.

Lemma findSymbol_app_new table name :
  findSymbol table name = None →
  findSymbol (table ++ [name]) name = Some (length table).
Proof.
  induction table as [|n table IH]; simpl.
  - by rewrite decide_True.
  - destruct (decide (n = name)); [discriminate|].
    destruct (findSymbol table name); [discriminate|].
    intros _. by rewrite IH.
Qed.

(** After [ensureSymbol] the name is found under the id that was returned. *)
Lemma ensureSymbol_found table name :
  let r := ensureSymbol table name (String.length name) in
  findSymbol r.1 name = Some r.2.
Proof.
  unfold ensureSymbol. rewrite substring_all.
  destruct (findSymbol table name) eqn:E; simpl; [done|].
  by apply findSymbol_app_new.
Qed.

(** A name that is already registered keeps its id and the table. *)
Lemma ensureSymbol_known table name i :
  findSymbol table name = Some i →
  ensureSymbol table name (String.length name) = (table, i).
Proof. intros H. unfold ensureSymbol. by rewrite substring_all, H. Qed.

Lemma updateMethod_ok cls symbol f methods w :
  objects w !! cls = Some (ObjClass methods) →
  updateMethod cls symbol f w =
    Ok tt (set_objects
             <[cls := ObjClass
                        (<[symbol := f (lookupMethod methods symbol)]> methods)]>
             w).
Proof. intros H. unfold updateMethod. by run (deref_ok _ _ _ H). Qed.

(** The state [PRIMITIVE(cls, name, prim)] leaves. *)
Lemma PRIMITIVE_ok (cls : VM → Value) name prim methods w :
  classExpr cls →
  objects w !! cls (vm w) = Some (ObjClass methods) →
  let r := ensureSymbol (symbols (vm w)) name (String.length name) in
  PRIMITIVE cls name prim w =
    Ok tt (set_objects
             <[cls (vm w) := ObjClass (<[r.2 := primitiveMethod prim]> methods)]>
             (set_vm (set_symbols r.1) w)).
Proof.
  intros Hcls Hc r. unfold PRIMITIVE.
  run (get_ok w). fold r. run (modify_ok (set_vm (set_symbols r.1)) w).
  set (w1 := set_vm (set_symbols r.1) w).
  assert (cls (vm w1) = cls (vm w)) as Hc1 by apply Hcls.
  set (f1 := λ m, {| type := METHOD_PRIMITIVE; primitive := primitive m |}).
  set (f2 := λ m, {| type := type m; primitive := Some prim |}).
  set (m1 := f1 (lookupMethod methods r.2)).
  set (w2 := set_objects
               <[cls (vm w) := ObjClass (<[r.2 := m1]> methods)]> w1).
  assert ((let! w := get in updateMethod (cls (vm w)) r.2 f1) w1 = Ok tt w2)
    as H1.
  { run (get_ok w1). rewrite Hc1. by apply updateMethod_ok. }
  cbv zeta. run H1.
  run (get_ok w2). change (cls (vm w2)) with (cls (vm w1)). rewrite Hc1.
  rewrite (updateMethod_ok (cls (vm w)) r.2 f2 (<[r.2 := m1]> methods) w2)
    by (unfold w2; simpl; apply lookup_insert_eq).
  unfold w2, set_objects. simpl. rewrite !insert_insert_eq.
  unfold lookupMethod at 1. by rewrite lookup_insert_eq.
Qed.

(** One binding: the name is then found, at the id [ensureSymbol] gave it,
    bound to the primitive; a name that was registered before keeps its id
    and the symbol table is left as it was. *)
Lemma PRIMITIVE_binds (cls : VM → Value) name prim methods w :
  classExpr cls →
  objects w !! cls (vm w) = Some (ObjClass methods) →
  ∃ w' symbol,
    PRIMITIVE cls name prim w = Ok tt w' ∧
    cls (vm w') = cls (vm w) ∧
    objects w' !! cls (vm w')
      = Some (ObjClass (<[symbol := primitiveMethod prim]> methods)) ∧
    boundAt w' (cls (vm w')) name = Some (symbol, primitiveMethod prim) ∧
    (∀ j, findSymbol (symbols (vm w)) name = Some j →
          symbol = j ∧ symbols (vm w') = symbols (vm w)).
Proof.
  intros Hcls Hc.
  set (r := ensureSymbol (symbols (vm w)) name (String.length name)).
  exists (set_objects
            <[cls (vm w) := ObjClass (<[r.2 := primitiveMethod prim]> methods)]>
            (set_vm (set_symbols r.1) w)), r.2.
  split; [by apply PRIMITIVE_ok|].
  assert (cls (set_symbols r.1 (vm w)) = cls (vm w)) as Hc1 by apply Hcls.
  cbn [vm set_objects set_vm objects]. rewrite Hc1.
  split; [done|]. split; [apply lookup_insert_eq|]. split.
  - unfold boundAt. cbn [vm set_objects set_vm objects symbols set_symbols].
    unfold r. rewrite ensureSymbol_found.
    rewrite lookup_insert_eq. unfold lookupMethod. by rewrite lookup_insert_eq.
  - intros j Hj. unfold r. by rewrite (ensureSymbol_known _ _ _ Hj).
Qed.

(** C4.  Binding a primitive under a name and then another primitive under
    the same name on the same class: both bindings go to the slot whose
    index is the symbol id of the name, the symbol table is not changed by
    the second binding, and a lookup of the name then yields the second
    primitive. *)
Theorem rebinding_last_write_wins (w : World) (cls : VM → Value)
    (name : string) (p1 p2 : Primitive) (methods : gmap nat Method) :
  classExpr cls →
  objects w !! cls (vm w) = Some (ObjClass methods) →
  ∃ w1 w2 symbol,
    PRIMITIVE cls name p1 w = Ok tt w1 ∧
    boundAt w1 (cls (vm w1)) name = Some (symbol, primitiveMethod p1) ∧
    PRIMITIVE cls name p2 w1 = Ok tt w2 ∧
    boundAt w2 (cls (vm w2)) name = Some (symbol, primitiveMethod p2) ∧
    cls (vm w2) = cls (vm w1) ∧
    symbols (vm w2) = symbols (vm w1).
Proof.
  intros Hcls Hc.
  destruct (PRIMITIVE_binds cls name p1 methods w Hcls Hc)
    as (w1 & i & E1 & Hc1 & Ho1 & Hb1 & _).
  destruct (PRIMITIVE_binds cls name p2 _ w1 Hcls Ho1)
    as (w2 & j & E2 & Hc2 & Ho2 & Hb2 & Hsame).
  assert (findSymbol (symbols (vm w1)) name = Some i) as Hi.
  { unfold boundAt in Hb1. destruct (findSymbol _ name); [|done].
    destruct (objects w1 !! _) as [[]|]; try done. by injection Hb1 as -> _. }
  destruct (Hsame i Hi) as [-> Hsym].
  by exists w1, w2, i.
Qed.

Lemma rebinding_last_write_wins_witness :
  ∃ w1 w2 symbol,
    PRIMITIVE numClass "toString" primitive_num_abs sampleWorld = Ok tt w1 ∧
    boundAt w1 (numClass (vm w1)) "toString"
      = Some (symbol, primitiveMethod primitive_num_abs) ∧
    PRIMITIVE numClass "toString" primitive_num_toString w1 = Ok tt w2 ∧
    boundAt w2 (numClass (vm w2)) "toString"
      = Some (symbol, primitiveMethod primitive_num_toString) ∧
    numClass (vm w2) = numClass (vm w1) ∧
    symbols (vm w2) = symbols (vm w1).
Proof.
  apply (rebinding_last_write_wins sampleWorld numClass "toString"
           primitive_num_abs primitive_num_toString ∅).
  - intros table v. reflexivity.
  - reflexivity.
Defined.

(** ** Console output *)

Section Console.

Variable text_form : World → Value → option (list ascii).


End Console.


(** ** Computations that keep the heap of objects *)

Create HintDb steady.

Lemma bind_inv {A B} (m : M A) (k : A → M B) w b w' :
  bind m k w = Ok b w' → ∃ a w1, m w = Ok a w1 ∧ k a w1 = Ok b w'.
Proof. unfold bind. destruct (m w) as [a w1|]; [eauto | discriminate]. Qed.

Lemma steady_ret {A} (a : A) : steady (ret a).
Proof. by intros w a' w' [= _ <-]. Qed.

Lemma steady_trap {A} t : steady (@trap A t).
Proof. intros w a w'. discriminate. Qed.

Lemma steady_get : steady get.
Proof. by intros w a w' [= _ <-]. Qed.

Lemma steady_orTrap {A} t (o : option A) : steady (orTrap t o).
Proof. destruct o; [apply steady_ret | apply steady_trap]. Qed.

Lemma steady_bind {A B} (m : M A) (k : A → M B) :
  steady m → (∀ a, steady (k a)) → steady (bind m k).
Proof.
  intros Hm Hk w b w' (a & w1 & E1 & E2)%bind_inv.
  destruct (Hm _ _ _ E1) as [Hv1 Hd1], (Hk _ _ _ _ E2) as [Hv2 Hd2].
  split; [congruence | set_solver].
Qed.

Lemma steady_set_buffers f : steady (modify (set_buffers f)).
Proof. by intros w a w' [= _ <-]. Qed.

Lemma steady_set_console f : steady (modify (set_console f)).
Proof. by intros w a w' [= _ <-]. Qed.

Lemma steady_allocate o : steady (allocate o).
Proof.
  intros w a w' [= _ <-]. split; [done|]. simpl. rewrite dom_insert_L.
  set_solver.
Qed.

Global Hint Resolve steady_ret steady_trap steady_get steady_orTrap
  steady_set_buffers steady_set_console steady_allocate : steady.

(** Break a computation into its steps and solve [steady] for each. *)
Ltac steady_steps :=
  repeat first
    [ solve [auto with steady]
    | progress cbv zeta
    | match goal with
      | |- steady (if ?c then _ else _) => destruct c
      | |- steady (match ?c with _ => _ end) => destruct c
      end
    | apply steady_bind; [|intros ?] ].

Lemma steady_arg args i : steady (arg args i).
Proof. unfold arg. steady_steps. Qed.

Lemma steady_deref v : steady (deref v).
Proof. unfold deref. steady_steps. Qed.
Global Hint Resolve steady_arg steady_deref : steady.

Lemma steady_typeOf v : steady (typeOf v).
Proof. unfold typeOf. steady_steps. Qed.

Lemma steady_AS_NUM v : steady (AS_NUM v).
Proof. unfold AS_NUM. steady_steps. Qed.

Lemma steady_AS_STRING v : steady (AS_STRING v).
Proof. unfold AS_STRING. steady_steps. Qed.

Lemma steady_returnUnsupported : steady returnUnsupported.
Proof. unfold returnUnsupported. steady_steps. Qed.

Lemma steady_readString p : steady (readString p).
Proof. unfold readString. steady_steps. Qed.

Lemma steady_store p bs : steady (store p bs).
Proof. unfold store. steady_steps. Qed.
Global Hint Resolve steady_typeOf steady_AS_NUM steady_AS_STRING
  steady_returnUnsupported steady_readString steady_store : steady.

Lemma steady_strlen p : steady (strlen p).
Proof. unfold strlen. steady_steps. Qed.

Lemma steady_strcpy dst src : steady (strcpy dst src).
Proof. unfold strcpy. steady_steps. Qed.

Lemma steady_strncpy dst src n : steady (strncpy dst src n).
Proof. unfold strncpy. steady_steps. Qed.

Lemma steady_strstr hay needle : steady (strstr hay needle).
Proof. unfold strstr. steady_steps. Qed.

Lemma steady_malloc size : steady (malloc size).
Proof. unfold malloc. steady_steps. Qed.

Lemma steady_release p : steady (release p).
Proof. unfold release. steady_steps. Qed.

Lemma steady_printf text : steady (printf text).
Proof. unfold printf. steady_steps. Qed.

Lemma steady_makeNum x : steady (makeNum x).
Proof. apply steady_allocate. Qed.

Lemma steady_makeString p : steady (makeString p).
Proof. apply steady_allocate. Qed.
Global Hint Resolve steady_strlen steady_strcpy steady_strncpy steady_strstr
  steady_malloc steady_release steady_printf steady_makeNum
  steady_makeString : steady.

Lemma freshResult_allocate o : freshResult (allocate o).
Proof. intros w r w' [= <- _]. apply fresh_object. Qed.

Lemma freshResult_bind {A} (m : M A) (k : A → M Value) :
  steady m → (∀ a, freshResult (k a)) → freshResult (bind m k).
Proof.
  intros Hm Hk w r w' (a & w1 & E1 & E2)%bind_inv.
  destruct (Hm _ _ _ E1) as [_ Hd]. specialize (Hk _ _ _ _ E2). set_solver.
Qed.

(** A result that is kept while further steps run is still new. *)
Lemma freshResult_kept (m : M Value) (n : M unit) :
  freshResult m → freshResult (let! v := m in n >> ret v).
Proof.
  intros Hm w r w' (v & w1 & E1 & E2)%bind_inv.
  apply bind_inv in E2 as (? & w2 & _ & [= <- _]). by eapply Hm.
Qed.

Lemma freshResult_trap t : freshResult (trap t).
Proof. intros w r w'. discriminate. Qed.

Ltac fresh_steps :=
  repeat first
    [ progress cbv zeta
    | apply freshResult_allocate
    | apply freshResult_trap
    | apply freshResult_bind; [solve [steady_steps]|intros ?]
    | match goal with
      | |- freshResult (if ?c then _ else _) => destruct c
      | |- freshResult (match ?c with _ => _ end) => destruct c
      end ].

(** ** The sentinel *)










Lemma freshResult_num_abs args : freshResult (num_abs args).
Proof. unfold num_abs, makeNum. fresh_steps. Qed.

Lemma freshResult_string_contains args : freshResult (string_contains args).
Proof. unfold string_contains, makeNum. fresh_steps. Qed.

Lemma freshResult_string_count args : freshResult (string_count args).
Proof. unfold string_count, makeNum. fresh_steps. Qed.


Section Sentinel.

Variable format_g : float → list ascii.
Variable text_form : World → Value → option (list ascii).



Lemma freshResult_num_toString args : freshResult (num_toString format_g args).
Proof.
  unfold num_toString, sprintf_g, localArray.
  do 7 (apply freshResult_bind; [solve [steady_steps]|intros ?]).
  apply freshResult_kept, freshResult_allocate.
Qed.




End Sentinel.

(** ** Bootstrap *)


Lemma GLOBAL_ok cls name w :
  let obj := fresh (dom (objects w)) in
  let r := addSymbol (globalSymbols (vm w)) name (String.length name) in
  GLOBAL cls name w =
    Ok tt (set_vm (set_globals (<[r.2 := obj]> (globals (vm w))))
             (set_vm (set_globalSymbols r.1)
                (set_objects <[obj := ObjInstance cls ∅]> w))).
Proof. reflexivity. Qed.







Section Bootstrap.

Variable format_g : float → list ascii.
Variable text_form : World → Value → option (list ascii).


End Bootstrap.

Lemma bareWorld_classesReady : classesReady bareWorld.
Proof. split; eexists; reflexivity. Defined.



(** ** The model at work *)

(** Evaluate the call, then read the state it returned. *)
Ltac run_first := split; [vm_compute; reflexivity|].

Example string_count_hello :
  ∃ r w', string_count [7%positive] sampleWorld = Ok r w' ∧
          objects w' !! r = Some (ObjNum 5).
Proof. eexists _, _. run_first. vm_compute. reflexivity. Qed.

Example string_count_empty :
  ∃ r w', string_count [10%positive] sampleWorld = Ok r w' ∧
          objects w' !! r = Some (ObjNum 0).
Proof. eexists _, _. run_first. vm_compute. reflexivity. Qed.

Example string_toString_same :
  string_toString [7%positive] sampleWorld = Ok 7%positive sampleWorld.
Proof. reflexivity. Qed.

(** [num_toString] leaves a String whose buffer holds the rendering and its
    terminator, in a new block of exactly that size; the local array is
    gone. *)
Example num_toString_six :
  ∃ r p w', num_toString digitText [3%positive] sampleWorld = Ok r w' ∧
            objects w' !! r = Some (ObjString p) ∧
            buffers w' !! block p = Some (cstr "1") ∧
            dom (buffers w') = {[block p]} ∪ dom (buffers sampleWorld).
Proof.
  eexists _, _, _. run_first. split; [vm_compute; reflexivity|].
  split; vm_compute; reflexivity.
Qed.

(** The method tables after the bootstrap of a bare machine: an operator
    and [toString] have one symbol id each and a binding per class. *)
Example registerPrimitives_bindings :
  ∃ w', registerPrimitives bareWorld = Ok tt w' ∧
        boundAt w' (numClass (vm w')) "+ "
          = Some (3, primitiveMethod primitive_num_plus) ∧
        boundAt w' (stringClass (vm w')) "+ "
          = Some (3, primitiveMethod primitive_string_plus) ∧
        boundAt w' (numClass (vm w')) "toString"
          = Some (1, primitiveMethod primitive_num_toString) ∧
        boundAt w' (stringClass (vm w')) "toString"
          = Some (1, primitiveMethod primitive_string_toString) ∧
        boundAt w' (numClass (vm w')) "count" = Some (7, emptyMethod).
Proof. eexists. run_first. repeat split; vm_compute; reflexivity. Qed.
(** * Further properties *)

(** ** Frames of the primitives *)

Section Respects.

Context (R : World → World → Prop) `{!PreOrder R}.
#[local] Set Default Proof Using "All".

Lemma respects_ret {A} (a : A) : respects R (ret a).
Proof. by intros w a' w' [= _ <-]. Qed.

Lemma respects_trap {A} t : respects R (@trap A t).
Proof. intros w a w'. discriminate. Qed.

Lemma respects_get : respects R get.
Proof. by intros w a w' [= _ <-]. Qed.

Lemma respects_orTrap {A} t (o : option A) : respects R (orTrap t o).
Proof. destruct o; [apply respects_ret | apply respects_trap]. Qed.

Lemma respects_bind {A B} (m : M A) (k : A → M B) :
  respects R m → (∀ a, respects R (k a)) → respects R (bind m k).
Proof.
  intros Hm Hk w b w' (a & w1 & E1 & E2)%bind_inv.
  transitivity w1; [by eapply Hm | by eapply Hk].
Qed.

Lemma respects_modify f : (∀ w, R w (f w)) → respects R (modify f).
Proof. intros Hf w a w' [= _ <-]. apply Hf. Qed.

End Respects.

Create HintDb respects.
Global Hint Resolve respects_ret respects_trap respects_get respects_orTrap
  : respects.

(** Break a computation into its steps; what is left are the steps that
    change the state. *)
Ltac respects_steps :=
  repeat first
    [ solve [eauto with respects typeclass_instances]
    | progress cbv zeta
    | match goal with
      | |- respects _ (if ?c then _ else _) => destruct c
      | |- respects _ (match ?c with _ => _ end) => destruct c
      end
    | apply respects_bind; [typeclasses eauto| |intros ?] ].

Section Reads.

Context (R : World → World → Prop) `{!PreOrder R}.
#[local] Set Default Proof Using "All".

Lemma respects_arg args i : respects R (arg args i).
Proof. unfold arg. respects_steps. Qed.

Lemma respects_deref v : respects R (deref v).
Proof. unfold deref. respects_steps. Qed.

Lemma respects_typeOf v : respects R (typeOf v).
Proof. unfold typeOf. pose proof respects_deref. respects_steps. Qed.

Lemma respects_AS_NUM v : respects R (AS_NUM v).
Proof. unfold AS_NUM. pose proof respects_deref. respects_steps. Qed.

Lemma respects_AS_STRING v : respects R (AS_STRING v).
Proof. unfold AS_STRING. pose proof respects_deref. respects_steps. Qed.

Lemma respects_returnUnsupported : respects R returnUnsupported.
Proof. unfold returnUnsupported. respects_steps. Qed.

Lemma respects_readString p : respects R (readString p).
Proof. unfold readString. respects_steps. Qed.

Lemma respects_strlen p : respects R (strlen p).
Proof. unfold strlen. pose proof respects_readString. respects_steps. Qed.

Lemma respects_strstr hay needle : respects R (strstr hay needle).
Proof. unfold strstr. pose proof respects_readString. respects_steps. Qed.

End Reads.

Global Hint Resolve respects_arg respects_deref respects_typeOf
  respects_AS_NUM respects_AS_STRING respects_returnUnsupported
  respects_readString respects_strlen respects_strstr : respects.

Global Instance onlyAllocates_preorder : PreOrder onlyAllocates.
Proof.
  split.
  - by intros w.
  - intros w1 w2 w3 (Hv1 & Ho1 & Hb1 & Hc1) (Hv2 & Ho2 & Hb2 & Hc2).
    repeat split; [congruence| by etransitivity |congruence|congruence].
Qed.

Global Instance onlyWrites_preorder b : PreOrder (onlyWrites b).
Proof.
  split.
  - by intros w.
  - intros w1 w2 w3 (Hv1 & Ho1 & Hc1 & Hd1 & Hb1) (Hv2 & Ho2 & Hc2 & Hd2 & Hb2).
    repeat split; try congruence. intros k Hk.
    by rewrite (Hb2 k Hk), (Hb1 k Hk).
Qed.

Global Instance onlyPrints_preorder : PreOrder onlyPrints.
Proof.
  split.
  - by intros w.
  - intros w1 w2 w3 (Hv1 & Ho1 & Hb1 & Hc1) (Hv2 & Ho2 & Hb2 & Hc2).
    repeat split; [congruence|congruence|congruence| by etransitivity].
Qed.

Lemma respects_eq_same {A} (m : M A) w a w' :
  respects eq m → m w = Ok a w' → w' = w.
Proof. intros Hm E. symmetry. by eapply Hm. Qed.

Lemma allocate_onlyAllocates o : respects onlyAllocates (allocate o).
Proof.
  intros w a w' [= _ <-]. repeat split. simpl.
  apply insert_subseteq, not_elem_of_dom, fresh_object.
Qed.

Lemma store_onlyWrites p bs : respects (onlyWrites (block p)) (store p bs).
Proof.
  intros w a w' E. unfold store, bind, get in E.
  destruct (buffers w !! block p) as [cells|] eqn:Hb; [|discriminate].
  destruct (decide _); [|discriminate]. unfold modify in E.
  injection E as _ <-.
  do 3 (split; [done|]). split; cbn [buffers set_buffers].
  - rewrite dom_insert_L.
    assert (block p ∈ dom (buffers w)) by (apply elem_of_dom; by eexists).
    set_solver.
  - intros k Hk. by rewrite lookup_insert_ne.
Qed.

Lemma strcpy_onlyWrites dst src :
  respects (onlyWrites (block dst)) (strcpy dst src).
Proof. unfold strcpy. pose proof store_onlyWrites. respects_steps. Qed.

Lemma strncpy_onlyWrites dst src n :
  respects (onlyWrites (block dst)) (strncpy dst src n).
Proof. unfold strncpy. pose proof store_onlyWrites. respects_steps. Qed.

Lemma printf_onlyPrints text : respects onlyPrints (printf text).
Proof.
  intros w a w' [= _ <-]. repeat split. simpl. by apply prefix_app_r.
Qed.

Ltac allocating :=
  pose proof allocate_onlyAllocates; unfold makeNum, makeString;
  respects_steps.

Lemma num_abs_onlyAllocates args : respects onlyAllocates (num_abs args).
Proof. unfold num_abs. allocating. Qed.

Lemma num_minus_onlyAllocates args : respects onlyAllocates (num_minus args).
Proof. unfold num_minus. allocating. Qed.

Lemma num_plus_onlyAllocates args : respects onlyAllocates (num_plus args).
Proof. unfold num_plus. allocating. Qed.

Lemma num_multiply_onlyAllocates args :
  respects onlyAllocates (num_multiply args).
Proof. unfold num_multiply. allocating. Qed.

Lemma num_divide_onlyAllocates args : respects onlyAllocates (num_divide args).
Proof. unfold num_divide. allocating. Qed.

Lemma string_contains_onlyAllocates args :
  respects onlyAllocates (string_contains args).
Proof. unfold string_contains. allocating. Qed.

Lemma string_count_onlyAllocates args :
  respects onlyAllocates (string_count args).
Proof. unfold string_count. allocating. Qed.

Lemma string_toString_unchanged args : respects eq (string_toString args).
Proof. unfold string_toString. respects_steps. Qed.

Lemma onlyAllocates_onlyAdds w w' : onlyAllocates w w' → onlyAdds w w'.
Proof. intros (Hv & Ho & Hb & Hc). repeat split; try done. by rewrite Hb. Qed.

Lemma append_onlyPrints text :
  respects onlyPrints (modify (set_console (λ out, out ++ text))).
Proof.
  intros w a w' [= _ <-]. repeat split. simpl. by apply prefix_app_r.
Qed.

Lemma malloc_inv size w p w' :
  malloc size w = Ok p w' →
  p = {| block := fresh (dom (buffers w)); offset := 0 |} ∧
  w' = set_buffers <[fresh (dom (buffers w)) := replicate size None]> w.
Proof. rewrite malloc_ok. by intros [= <- <-]. Qed.

Lemma allocate_inv o w r w' :
  allocate o w = Ok r w' →
  r = fresh (dom (objects w)) ∧
  w' = set_objects <[fresh (dom (objects w)) := o]> w.
Proof. rewrite allocate_ok. by intros [= <- <-]. Qed.

(** A new String over a buffer adds one object and nothing else. *)
Lemma makeString_onlyAllocates p : respects onlyAllocates (makeString p).
Proof. apply allocate_onlyAllocates. Qed.

(** Writes to a block that did not exist leave the buffers that did. *)
Lemma onlyWrites_new_block w0 b w w' :
  buffers w0 ⊆ buffers w → b ∉ dom (buffers w0) →
  onlyWrites b w w' → buffers w0 ⊆ buffers w'.
Proof.
  intros Hsub Hb (_ & _ & _ & _ & Hk). apply map_subseteq_spec.
  intros k c Hc. rewrite Hk.
  - by eapply lookup_weaken.
  - intros ->. apply Hb, elem_of_dom. by eexists.
Qed.

Lemma string_plus_onlyAdds args : respects onlyAdds (string_plus args).
Proof.
  intros w r w' E. unfold string_plus in E.
  apply bind_inv in E as (a1 & w1 & E1 & E).
  apply (respects_eq_same _ _ _ _ (respects_arg eq _ _)) in E1 as ->.
  apply bind_inv in E as (t & w1 & E1 & E).
  apply (respects_eq_same _ _ _ _ (respects_typeOf eq _)) in E1 as ->.
  destruct (decide (t ≠ OBJ_STRING)).
  { apply (respects_eq_same _ _ _ _ (respects_returnUnsupported eq)) in E
      as ->. by repeat split. }
  apply bind_inv in E as (a0 & w1 & E1 & E).
  apply (respects_eq_same _ _ _ _ (respects_arg eq _ _)) in E1 as ->.
  apply bind_inv in E as (left & w1 & E1 & E).
  apply (respects_eq_same _ _ _ _ (respects_AS_STRING eq _)) in E1 as ->.
  apply bind_inv in E as (right & w1 & E1 & E).
  apply (respects_eq_same _ _ _ _ (respects_AS_STRING eq _)) in E1 as ->.
  apply bind_inv in E as (ll & w1 & E1 & E).
  apply (respects_eq_same _ _ _ _ (respects_strlen eq _)) in E1 as ->.
  apply bind_inv in E as (rl & w1 & E1 & E).
  apply (respects_eq_same _ _ _ _ (respects_strlen eq _)) in E1 as ->.
  apply bind_inv in E as (result & w1 & [-> ->]%malloc_inv & E).
  set (b := fresh (dom (buffers w))) in *.
  apply bind_inv in E as (? & w2 & H2%strcpy_onlyWrites & E).
  apply bind_inv in E as (? & w3 & H3%strcpy_onlyWrites & E).
  apply makeString_onlyAllocates in E as (Hv & Ho & Hb & Hc).
  simpl in H2, H3.
  assert (b ∉ dom (buffers w)) as Hfresh by apply is_fresh.
  assert (buffers w ⊆ buffers w3) as Hsub.
  { eapply (onlyWrites_new_block w b); [|done|exact H3].
    eapply (onlyWrites_new_block w b); [|done|exact H2].
    simpl. by apply insert_subseteq, not_elem_of_dom. }
  destruct H2 as (Hv2 & Ho2 & Hc2 & _), H3 as (Hv3 & Ho3 & Hc3 & _).
  cbn [vm objects console set_buffers] in Hv2, Ho2, Hc2.
  repeat split.
  - by rewrite Hv, Hv3, Hv2.
  - rewrite <- Ho. by rewrite Ho3, Ho2.
  - by rewrite Hb.
  - by rewrite Hc, Hc3, Hc2.
Qed.

Section Frames.

Variable format_g : float → list ascii.
Variable text_form : World → Value → option (list ascii).

Lemma io_write_onlyPrints args : respects onlyPrints (io_write text_form args).
Proof.
  unfold io_write, printValue, printf.
  pose proof append_onlyPrints. respects_steps.
Qed.

Lemma num_toString_onlyAdds args :
  respects onlyAdds (num_toString format_g args).
Proof.
  intros w r w' E. unfold num_toString, localArray, sprintf_g in E.
  apply bind_inv in E as (temp & w1 & [-> ->]%malloc_inv & E).
  set (b1 := fresh (dom (buffers w))) in *.
  set (w1 := set_buffers <[b1 := replicate 100 None]> w) in *.
  apply bind_inv in E as (a0 & w2 & E1 & E).
  apply (respects_eq_same _ _ _ _ (respects_arg eq _ _)) in E1 as ->.
  apply bind_inv in E as (x & w2 & E1 & E).
  apply (respects_eq_same _ _ _ _ (respects_AS_NUM eq _)) in E1 as ->.
  apply bind_inv in E as (? & w2 & H2%store_onlyWrites & E).
  apply bind_inv in E as (n & w3 & E1 & E).
  apply (respects_eq_same _ _ _ _ (respects_strlen eq _)) in E1 as ->.
  apply bind_inv in E as (result & w3 & [-> ->]%malloc_inv & E).
  set (b2 := fresh (dom (buffers w2))) in *.
  apply bind_inv in E as (? & w4 & H4%strncpy_onlyWrites & E).
  apply bind_inv in E as (v & w5 & H5%makeString_onlyAllocates & E).
  apply bind_inv in E as (? & w6 & [= _ <-] & [= _ <-]).
  simpl in H2, H4.
  assert (b1 ∉ dom (buffers w)) as Hb1 by apply is_fresh.
  assert (b2 ∉ dom (buffers w2)) as Hb2 by apply is_fresh.
  assert (buffers w ⊆ buffers w2) as Hsub2.
  { eapply (onlyWrites_new_block w b1); [|done|exact H2].
    unfold w1. simpl. by apply insert_subseteq, not_elem_of_dom. }
  assert (b2 ∉ dom (buffers w)) as Hb2'.
  { intros Hin. apply Hb2. by eapply subseteq_dom. }
  assert (buffers w ⊆ buffers w4) as Hsub4.
  { eapply (onlyWrites_new_block w b2); [|done|exact H4].
    simpl. etransitivity; [exact Hsub2|].
    by apply insert_subseteq, not_elem_of_dom. }
  destruct H2 as (Hv2 & Ho2 & Hc2 & _), H4 as (Hv4 & Ho4 & Hc4 & _),
    H5 as (Hv5 & Ho5 & Hbuf5 & Hc5).
  cbn [vm objects console set_buffers] in Hv4, Ho4, Hc4.
  repeat split; simpl.
  - by rewrite Hv5, Hv4, Hv2.
  - etransitivity; [|exact Ho5]. by rewrite Ho4, Ho2.
  - rewrite Hbuf5. apply map_subseteq_spec. intros k c Hk.
    rewrite lookup_delete_ne.
    + by eapply lookup_weaken.
    + intros ->. apply Hb1, elem_of_dom. by eexists.
  - by rewrite Hc5, Hc4, Hc2.
Qed.

End Frames.

Lemma tested_or_declined w args tag (k : Value → M Value) r w' :
  (∀ a, freshResult (k a)) →
  (let! a1 := arg args 1 in
   let! t := typeOf a1 in
   if decide (t ≠ tag) then returnUnsupported else k a1) w = Ok r w' →
  r ∉ dom (objects w) ∨ r = unsupported (vm w).
Proof.
  intros Hk E.
  apply bind_inv in E as (a1 & w1 & E1 & E).
  apply (respects_eq_same _ _ _ _ (respects_arg eq _ _)) in E1 as ->.
  apply bind_inv in E as (t & w1 & E1 & E).
  apply (respects_eq_same _ _ _ _ (respects_typeOf eq _)) in E1 as ->.
  destruct (decide (t ≠ tag)).
  - right. by injection E as <- _.
  - left. by eapply Hk.
Qed.

Section Calls.

Variable format_g : float → list ascii.
Variable text_form : World → Value → option (list ascii).

Lemma callPrimitive_frame prim args w r w' :
  callPrimitive format_g text_form prim args w = Ok r w' →
  if decide (prim = primitive_io_write) then onlyPrints w w'
  else onlyAdds w w'.
Proof.
  intros E. destruct prim; simpl in E; simpl;
    try (apply onlyAllocates_onlyAdds; revert E;
         first [ apply num_abs_onlyAllocates
               | apply num_minus_onlyAllocates
               | apply num_plus_onlyAllocates
               | apply num_multiply_onlyAllocates
               | apply num_divide_onlyAllocates
               | apply string_contains_onlyAllocates
               | apply string_count_onlyAllocates ]).
  - by eapply num_toString_onlyAdds.
  - apply (respects_eq_same _ _ _ _ (string_toString_unchanged args))
      in E as ->. by repeat split.
  - by eapply string_plus_onlyAdds.
  - by eapply io_write_onlyPrints.
Qed.

(** X1.  Whatever it is called with, a primitive that returns leaves the fields
    of [vm] (class pointers, symbol tables, globals, sentinel) as they were
    and leaves every object that existed exactly as it was: method tables,
    numbers and strings are never changed or removed by a primitive. *)
Theorem primitives_keep_objects (prim : Primitive) (args : list Value)
    (w : World) (r : Value) (w' : World) :
  callPrimitive format_g text_form prim args w = Ok r w' →
  vm w' = vm w ∧ objects w ⊆ objects w'.
Proof.
  intros H%callPrimitive_frame. destruct (decide _).
  - destruct H as (Hv & Ho & _). split; [done|]. by rewrite Ho.
  - by destruct H as (Hv & Ho & _).
Qed.

(** X2.  Whatever it is called with, a primitive other than [string_plus]
    that returns has left every character buffer that existed with the
    bytes it had (new buffers may have appeared), and has only appended to
    the console; every such primitive but [io_write] has written nothing to
    it.  [string_plus] is left out: on two Strings its last copy writes
    past the block it allocated. *)
Theorem primitives_keep_buffers (prim : Primitive) (args : list Value)
    (w : World) (r : Value) (w' : World) :
  prim ≠ primitive_string_plus →
  callPrimitive format_g text_form prim args w = Ok r w' →
  buffers w ⊆ buffers w' ∧
  console w `prefix_of` console w' ∧
  (prim ≠ primitive_io_write → console w' = console w).
Proof.
  intros _ H%callPrimitive_frame. destruct (decide _) as [->|Hne].
  - destruct H as (_ & _ & Hb & Hc). rewrite Hb. by repeat split.
  - destruct H as (_ & _ & Hb & Hc). rewrite Hc. by repeat split.
Qed.

(** X3.  The value a primitive returns is a new object, or the sentinel, or the
    operand that [string_toString] and [io_write] hand back: a primitive
    never returns any other object that already existed. *)
Theorem result_new_or_given (prim : Primitive) (args : list Value)
    (w : World) (r : Value) (w' : World) :
  callPrimitive format_g text_form prim args w = Ok r w' →
  r ∉ dom (objects w) ∨ r = unsupported (vm w) ∨
  (prim = primitive_string_toString ∧ args !! 0 = Some r) ∨
  (prim = primitive_io_write ∧ args !! 1 = Some r).
Proof.
  intros E.
  assert (∀ m : M Value, freshResult m → m w = Ok r w' →
            r ∉ dom (objects w) ∨ r = unsupported (vm w) ∨
            (prim = primitive_string_toString ∧ args !! 0 = Some r) ∨
            (prim = primitive_io_write ∧ args !! 1 = Some r)) as Hnew.
  { intros m Hm Em. left. by eapply Hm. }
  assert (∀ tag (k : Value → M Value), (∀ a, freshResult (k a)) →
            (let! a1 := arg args 1 in
             let! t := typeOf a1 in
             if decide (t ≠ tag) then returnUnsupported else k a1) w
              = Ok r w' →
            r ∉ dom (objects w) ∨ r = unsupported (vm w) ∨
            (prim = primitive_string_toString ∧ args !! 0 = Some r) ∨
            (prim = primitive_io_write ∧ args !! 1 = Some r)) as Hbin.
  { intros tag k Hk Ek.
    destruct (tested_or_declined w args tag k r w' Hk Ek); auto. }
  destruct prim; simpl in E.
  - exact (Hnew _ (freshResult_num_abs args) E).
  - exact (Hnew _ (freshResult_num_toString format_g args) E).
  - refine (Hbin OBJ_NUM _ _ E). intros a. unfold makeNum. fresh_steps.
  - refine (Hbin OBJ_NUM _ _ E). intros a. unfold makeNum. fresh_steps.
  - refine (Hbin OBJ_NUM _ _ E). intros a. unfold makeNum. fresh_steps.
  - refine (Hbin OBJ_NUM _ _ E). intros a. unfold makeNum. fresh_steps.
  - exact (Hnew _ (freshResult_string_contains args) E).
  - exact (Hnew _ (freshResult_string_count args) E).
  - right. right. left. split; [done|]. unfold string_toString, arg in E.
    destruct (args !! 0); [by injection E as -> _ | discriminate].
  - refine (Hbin OBJ_STRING _ _ E). intros a. unfold makeString. fresh_steps.
  - right. right. right. split; [done|]. unfold io_write in E.
    apply bind_inv in E as (a1 & w1 & E1 & E).
    apply bind_inv in E as (? & w2 & _ & E).
    apply bind_inv in E as (? & w3 & _ & E).
    unfold arg in E.
    destruct (args !! 1); [by injection E as -> _ | discriminate].
Qed.

End Calls.

(** ** Number to text *)

Lemma strncpyBytes_cstring cells s :
  cstring cells = Some s → strncpyBytes (S (length s)) cells = Some (s ++ [NUL]).
Proof.
  revert s. induction cells as [|[c|] rest IH]; intros s; simpl;
    try discriminate.
  destruct (decide (c = NUL)) as [->|Hc].
  - by intros [= <-].
  - destruct (cstring rest) as [t|]; simpl; [|discriminate].
    intros [= <-]. cbn [length]. by rewrite (IH t eq_refl).
Qed.

Lemma strncpy_ok dst src n bs cells w :
  cellsAt w src ≫= strncpyBytes n = Some bs → block dst ≠ block src →
  buffers w !! block dst = Some cells →
  offset dst + length bs ≤ length cells →
  strncpy dst src n w =
    Ok dst (set_buffers
              <[block dst := take (offset dst) cells ++ (Some <$> bs)
                               ++ drop (offset dst + length bs) cells]> w).
Proof.
  intros Hsrc Hne Hb Hle. unfold strncpy. run (get_ok w).
  rewrite Hsrc. rewrite (bind_ok _ _ w bs w eq_refl).
  rewrite (overlaps_other_block _ _ _ Hne).
  by rewrite (bind_ok _ _ _ _ _ (store_ok dst bs cells w Hb Hle)).
Qed.

(** The buffers after [num_toString]: the local array is gone and one new
    block is left. *)
Lemma temp_released (m : gmap positive (list (option ascii)))
    b1 b2 c0 c1 c2 c3 :
  b1 ∉ dom m → b2 ≠ b1 →
  delete b1 (<[b2 := c3]> (<[b2 := c2]> (<[b1 := c1]> (<[b1 := c0]> m))))
  = <[b2 := c3]> m.
Proof.
  intros Hb1 Hne. rewrite !insert_insert_eq.
  rewrite delete_insert_ne by done. rewrite delete_insert_eq.
  by rewrite delete_id by (by apply not_elem_of_dom).
Qed.

(** The state [num_toString] leaves on a Number whose text fits. *)
Lemma num_toString_result (format_g : float → list ascii) (w : World)
    (args : list Value) (a : Value) (x : float) :
  args !! 0 = Some a → objects w !! a = Some (ObjNum x) →
  NUL ∉ format_g x → length (format_g x) < 100 →
  ∃ r b,
    (r ∉ dom (objects w)) ∧ (b ∉ dom (buffers w)) ∧
    num_toString format_g args w =
      Ok r (set_objects <[r := ObjString {| block := b; offset := 0 |}]>
              (set_buffers <[b := Some <$> (format_g x ++ [NUL])]> w)).
Proof.
  intros Ha Hx Hnul Hlen. set (text := format_g x) in *.
  unfold num_toString, localArray, sprintf_g.
  run (malloc_ok 100 w).
  set (b1 := fresh (dom (buffers w))).
  set (c0 := replicate 100 (@None ascii)).
  set (w1 := set_buffers <[b1 := c0]> w).
  set (temp := {| block := b1; offset := 0 |}).
  run (arg_ok _ _ _ w1 Ha). run (AS_NUM_ok a x w1 Hx). fold text.
  assert (length (text ++ [NUL]) = S (length text)) as Hlen1
    by (rewrite length_app; simpl; lia).
  assert (buffers w1 !! b1 = Some c0) as Hb1 by apply lookup_insert_eq.
  rewrite (bind_ok _ _ _ _ _
             (store_ok temp (text ++ [NUL]) c0 w1 Hb1
                ltac:(unfold c0; rewrite length_replicate, Hlen1; simpl; lia))).
  simpl offset. simpl block. rewrite take_0, app_nil_l, Hlen1.
  set (c1 := (Some <$> text ++ [NUL]) ++ drop (0 + S (length text)) c0).
  set (w2 := set_buffers <[b1 := c1]> w1).
  assert (cstring c1 = Some text) as Hc1.
  { unfold c1. rewrite fmap_app, <- app_assoc. by apply cstring_app. }
  assert (cellsAt w2 temp ≫= cstring = Some text) as Hread.
  { unfold cellsAt, w2. simpl. rewrite lookup_insert_eq. simpl.
    by rewrite drop_0. }
  run (strlen_ok temp text w2 Hread).
  run (malloc_ok (length text + 1) w2).
  set (b2 := fresh (dom (buffers w2))).
  set (c2 := replicate (length text + 1) (@None ascii)).
  set (w3 := set_buffers <[b2 := c2]> w2).
  set (result := {| block := b2; offset := 0 |}).
  assert (b1 ∉ dom (buffers w)) as Hfresh1 by apply is_fresh.
  assert (b1 ∈ dom (buffers w2)) as Hin1.
  { unfold w2, w1. simpl. rewrite !dom_insert_L. set_solver. }
  assert (b2 ≠ b1) as Hne.
  { intros E. rewrite <- E in Hin1. by apply is_fresh in Hin1. }
  assert (b2 ∉ dom (buffers w)) as Hfresh2.
  { intros Hin. apply (is_fresh (dom (buffers w2))). fold b2.
    unfold w2, w1. simpl. rewrite !dom_insert_L. set_solver. }
  assert (cellsAt w3 temp ≫= strncpyBytes (length text + 1)
          = Some (text ++ [NUL])) as Hcopy.
  { unfold cellsAt, w3, w2. simpl. rewrite lookup_insert_ne by done.
    rewrite lookup_insert_eq. simpl. rewrite drop_0, Nat.add_1_r.
    by apply strncpyBytes_cstring. }
  assert (buffers w3 !! b2 = Some c2) as Hb2 by apply lookup_insert_eq.
  rewrite (bind_ok _ _ _ _ _
             (strncpy_ok result temp _ (text ++ [NUL]) c2 w3 Hcopy
                ltac:(exact Hne) Hb2
                ltac:(unfold c2; rewrite length_replicate, Hlen1; simpl; lia))).
  simpl offset. simpl block. rewrite take_0, app_nil_l.
  unfold makeString. rewrite (bind_ok _ _ _ _ _ (allocate_ok _ _)).
  unfold release. rewrite (bind_ok _ _ _ _ _ (modify_ok _ _)).
  exists (fresh (dom (objects w))), b2.
  split; [apply is_fresh|]. split; [done|].
  unfold ret. f_equal.
  unfold w3, w2, w1, set_objects, set_buffers. simpl. f_equal.
  rewrite (temp_released (buffers w) b1 b2 _ _ _ _ Hfresh1 Hne).
  f_equal. unfold c2. rewrite Hlen1, drop_ge, app_nil_r; [done|].
  rewrite length_replicate. lia.
Qed.

Lemma holdsString_fresh_block w r b text :
  NUL ∉ text →
  holdsString
    (set_objects <[r := ObjString {| block := b; offset := 0 |}]>
       (set_buffers <[b := Some <$> (text ++ [NUL])]> w)) r text.
Proof.
  intros Hnul. eexists. split; [apply lookup_insert_eq|].
  unfold cellsAt. simpl. rewrite lookup_insert_eq. simpl.
  rewrite drop_0, fmap_app. by apply cstring_app.
Qed.

(** X4.  On a Number whose ["%g"] text has no NUL and fewer than 100 bytes,
    [num_toString] returns a new String that reads exactly that text; its
    buffer is a new block of the length of the text plus one, the local
    array is released, and nothing else in the machine changes. *)
Theorem num_toString_renders (format_g : float → list ascii) (w : World)
    (args : list Value) (a : Value) (x : float) :
  args !! 0 = Some a → objects w !! a = Some (ObjNum x) →
  NUL ∉ format_g x → length (format_g x) < 100 →
  ∃ r b w',
    num_toString format_g args w = Ok r w' ∧
    (r ∉ dom (objects w)) ∧ (b ∉ dom (buffers w)) ∧
    holdsString w' r (format_g x) ∧
    objects w' = <[r := ObjString {| block := b; offset := 0 |}]> (objects w) ∧
    buffers w' = <[b := Some <$> (format_g x ++ [NUL])]> (buffers w) ∧
    vm w' = vm w ∧ console w' = console w.
Proof.
  intros Ha Hx Hnul Hlen.
  destruct (num_toString_result format_g w args a x Ha Hx Hnul Hlen)
    as (r & b & Hr & Hb & E).
  eexists r, b, _. split; [exact E|]. do 2 (split; [done|]).
  split; [by apply holdsString_fresh_block|]. by repeat split.
Qed.

Lemma string_count_returns w args s text :
  args !! 0 = Some s → holdsString w s text →
  returnsNumber (string_count args) w (toDouble (Z.of_nat (length text))).
Proof.
  intros Hs (p & Hp & Hread). unfold string_count, returnsNumber.
  run (arg_ok _ _ _ w Hs). run (AS_STRING_ok _ _ w Hp).
  run (strlen_ok _ _ w Hread). apply makeNum_returnsNumber.
Qed.

(** X6.  The String [num_toString] returns is one the other primitives can
    read: [string_count] on it gives the number of bytes of the text. *)
Theorem num_toString_then_count (format_g : float → list ascii) (w : World)
    (args : list Value) (a : Value) (x : float) :
  args !! 0 = Some a → objects w !! a = Some (ObjNum x) →
  NUL ∉ format_g x → length (format_g x) < 100 →
  ∃ r w', num_toString format_g args w = Ok r w' ∧
          returnsNumber (string_count [r]) w'
            (toDouble (Z.of_nat (length (format_g x)))).
Proof.
  intros Ha Hx Hnul Hlen.
  destruct (num_toString_result format_g w args a x Ha Hx Hnul Hlen)
    as (r & b & Hr & Hb & E).
  eexists r, _. split; [exact E|].
  apply (string_count_returns _ [r] r); [done|].
  by apply holdsString_fresh_block.
Qed.

(** ** Length and search *)

(** X7.  [string_count] counts the bytes of the receiver's buffer up to the
    first NUL, whatever the buffer holds after it, and returns the count as
    a new Number. *)
Theorem string_count_to_first_NUL (w : World) (args : list Value)
    (s : Value) (p : CharPtr) (text : list ascii) (rest : list (option ascii)) :
  args !! 0 = Some s → objects w !! s = Some (ObjString p) →
  cellsAt w p = Some ((Some <$> text) ++ Some NUL :: rest) → NUL ∉ text →
  returnsNumber (string_count args) w (toDouble (Z.of_nat (length text))).
Proof.
  intros Hs Hp Hcells Hnul. apply (string_count_returns w args s); [done|].
  exists p. split; [done|]. rewrite Hcells. simpl. by apply cstring_app.
Qed.

(** X8.  On two Strings [string_contains] answers whether the operand occurs in
    the receiver as a run of consecutive bytes: the Number 1 if it does and
    the Number 0 if it does not.  The branch for two empty strings gives
    what the search gives. *)
Theorem string_contains_decides_occurrence (w : World) (args : list Value)
    (s t : Value) (hay needle : list ascii) :
  args !! 0 = Some s → args !! 1 = Some t →
  holdsString w s hay → holdsString w t needle →
  (occursIn needle hay → returnsNumber (string_contains args) w 1) ∧
  (¬ occursIn needle hay → returnsNumber (string_contains args) w 0).
Proof.
  intros Hs Ht Hhay Hneedle.
  pose proof (string_contains_returns w args s t _ _ Hs Ht Hhay Hneedle) as H.
  destruct (containsValue_occurs hay needle) as [H1 H0].
  split; intros Ho; [rewrite <- (H1 Ho) | rewrite <- (H0 Ho)]; exact H.
Qed.

(** ** Receivers *)

Lemma AS_NUM_wrong v o w :
  objects w !! v = Some o → objType o ≠ OBJ_NUM →
  AS_NUM v w = Fault WrongVariant.
Proof.
  intros H Ht. unfold AS_NUM. run (deref_ok _ _ _ H). by destruct o.
Qed.

Lemma binary_num_receiver w a x rest o y (f : float → float → float) :
  objects w !! a = Some o → objType o ≠ OBJ_NUM →
  objects w !! x = Some (ObjNum y) →
  (let! a1 := arg (a :: x :: rest) 1 in
   let! t := typeOf a1 in
   if decide (t ≠ OBJ_NUM) then returnUnsupported else
   let! a0 := arg (a :: x :: rest) 0 in
   let! x := AS_NUM a0 in
   let! y := AS_NUM a1 in
   makeNum (f x y)) w = Fault WrongVariant.
Proof.
  intros Ha Ho Hx.
  run (arg_ok (a :: x :: rest) 1 x w eq_refl). run (typeOf_ok _ _ w Hx).
  rewrite decide_False by (simpl; tauto).
  run (arg_ok (a :: x :: rest) 0 a w eq_refl).
  by rewrite (bind_fault _ _ _ _ (AS_NUM_wrong _ _ w Ha Ho)).
Qed.

(** X9.  The numeric primitives test the tag of the second operand only.  With a
    Number as operand and a live receiver that is not a Number, none of the
    four binary primitives returns the sentinel: each goes on to read the
    receiver as a Number, which the value model forbids. *)
Theorem numeric_receiver_not_tested (w : World) (a x : Value)
    (rest : list Value) (o : Obj) (y : float) :
  objects w !! a = Some o → objType o ≠ OBJ_NUM →
  objects w !! x = Some (ObjNum y) →
  num_plus (a :: x :: rest) w = Fault WrongVariant ∧
  num_minus (a :: x :: rest) w = Fault WrongVariant ∧
  num_multiply (a :: x :: rest) w = Fault WrongVariant ∧
  num_divide (a :: x :: rest) w = Fault WrongVariant.
Proof.
  intros Ha Ho Hx. unfold num_plus, num_minus, num_multiply, num_divide.
  repeat split.
  - by apply (binary_num_receiver w a x rest o y PrimFloat.add).
  - by apply (binary_num_receiver w a x rest o y PrimFloat.sub).
  - by apply (binary_num_receiver w a x rest o y PrimFloat.mul).
  - by apply (binary_num_receiver w a x rest o y PrimFloat.div).
Qed.

(** ** Absolute value and [fabs] *)

Lemma Prim2SF_inj a b : Prim2SF a = Prim2SF b → a = b.
Proof.
  intros H. by rewrite <- (SF2Prim_Prim2SF a), <- (SF2Prim_Prim2SF b), H.
Qed.

Lemma negative_zero_SF : Prim2SF (-0)%float = S754_zero true.
Proof. reflexivity. Qed.

Lemma absValue_fabs x : x ≠ (-0)%float → absValue x = abs x.
Proof.
  intros Hx. apply Prim2SF_inj. rewrite FloatAxioms.abs_spec.
  assert (Prim2SF x ≠ S754_zero true) as Hz.
  { intros E. apply Hx, Prim2SF_inj. by rewrite negative_zero_SF. }
  unfold absValue.
  destruct (x <? 0)%float eqn:Hlt; rewrite FloatAxioms.ltb_spec, zero_SF in Hlt;
    [rewrite FloatAxioms.opp_spec|];
    destruct (Prim2SF x) as [[]| [] | |[] m e]; done.
Qed.

Lemma opp_of_negative x : (x <? 0)%float = true → (- x <? 0)%float = false.
Proof.
  rewrite !FloatAxioms.ltb_spec, FloatAxioms.opp_spec, zero_SF.
  by destruct (Prim2SF x) as [[]| [] | |[] m e].
Qed.

Lemma absValue_idempotent x : absValue (absValue x) = absValue x.
Proof.
  unfold absValue. destruct (x <? 0)%float eqn:Hlt.
  - by rewrite (opp_of_negative _ Hlt).
  - by rewrite Hlt.
Qed.

(** X10.  On every double that is neither a NaN nor negative zero [num_abs]
    gives what the C library's [fabs] gives (an infinity becomes the
    positive one), while [-0.0], which is not less than zero, is returned
    with its sign, where [fabs] would give [0.0].  NaNs are left out: a C
    double keeps a sign on a NaN, which the one NaN of the model does not
    show. *)
Theorem num_abs_agrees_with_fabs (w : World) (args : list Value) (a : Value)
    (x : float) :
  args !! 0 = Some a → objects w !! a = Some (ObjNum x) →
  (is_nan x = false → x ≠ (-0)%float →
     returnsNumber (num_abs args) w (abs x)) ∧
  (x = (-0)%float → returnsNumber (num_abs args) w x ∧ abs x ≠ x).
Proof.
  intros Ha Hx. pose proof (num_abs_returns w args a x Ha Hx) as H. split.
  - intros _ Hne. by rewrite <- (absValue_fabs x Hne).
  - intros ->. split; [exact H|]. intros E.
    apply (f_equal Prim2SF) in E. discriminate E.
Qed.

(** X11.  Taking the absolute value of the result of [num_abs] gives a Number
    holding the same double: the second call changes nothing but to
    allocate. *)
Theorem num_abs_idempotent (w : World) (args : list Value) (a : Value)
    (x : float) :
  args !! 0 = Some a → objects w !! a = Some (ObjNum x) →
  ∃ r w1, num_abs args w = Ok r w1 ∧
          objects w1 !! r = Some (ObjNum (absValue x)) ∧
          returnsNumber (num_abs [r]) w1 (absValue x).
Proof.
  intros Ha Hx.
  destruct (returnsNumber_lookup _ _ _ (num_abs_returns w args a x Ha Hx))
    as (r & w1 & E & Hr & _ & _).
  exists r, w1. split; [done|]. split; [done|].
  rewrite <- (absValue_idempotent x).
  by apply (num_abs_returns w1 [r] r).
Qed.

(** ** Bindings of the bootstrap *)

Lemma findSymbol_lookup table name i :
  findSymbol table name = Some i → table !! i = Some name.
Proof.
  revert i. induction table as [|n table IH]; intros i; simpl; [done|].
  destruct (decide (n = name)) as [->|Hne].
  - by intros [= <-].
  - destruct (findSymbol table name) as [j|]; simpl; [|done].
    intros [= <-]. simpl. by apply IH.
Qed.

Lemma findSymbol_app_known table name key i :
  findSymbol table name = Some i → findSymbol (table ++ [key]) name = Some i.
Proof.
  revert i. induction table as [|n table IH]; intros i; simpl; [done|].
  destruct (decide (n = name)); [done|].
  destruct (findSymbol table name) as [j|]; simpl; [|done].
  intros [= <-]. by rewrite (IH j).
Qed.

(** Registering a name moves no name that was registered before. *)
Lemma ensureSymbol_keeps table name len other i :
  findSymbol table other = Some i →
  findSymbol (ensureSymbol table name len).1 other = Some i.
Proof.
  intros H. unfold ensureSymbol.
  destruct (findSymbol table (substring 0 len name)); simpl; [done|].
  by apply findSymbol_app_known.
Qed.

Lemma PRIMITIVE_after (cls : VM → Value) name prim methods w :
  classExpr cls →
  objects w !! cls (vm w) = Some (ObjClass methods) →
  PRIMITIVE cls name prim w = Ok tt (afterPRIMITIVE cls name prim methods w).
Proof. apply PRIMITIVE_ok. Qed.

Lemma boundAt_afterPRIMITIVE (cls : VM → Value) name prim methods w
    c' name' i m :
  objects w !! cls (vm w) = Some (ObjClass methods) →
  boundAt w c' name' = Some (i, m) →
  c' ≠ cls (vm w) ∨ name' ≠ name →
  boundAt (afterPRIMITIVE cls name prim methods w) c' name' = Some (i, m).
Proof.
  intros Hc Hb Hother. unfold boundAt in *.
  destruct (findSymbol (symbols (vm w)) name') as [j|] eqn:Hj; [|done].
  unfold afterPRIMITIVE.
  cbn [vm objects set_objects set_vm symbols set_symbols].
  rewrite (ensureSymbol_keeps _ _ _ _ _ Hj).
  destruct (decide (c' = cls (vm w))) as [->|Hne].
  - rewrite lookup_insert_eq. rewrite Hc in Hb. injection Hb as <- <-.
    destruct Hother as [?|Hname]; [done|].
    do 2 f_equal. unfold lookupMethod. rewrite lookup_insert_ne; [done|].
    intros E.
    pose proof (ensureSymbol_found (symbols (vm w)) name) as Hfound.
    simpl in Hfound. rewrite E in Hfound.
    pose proof (ensureSymbol_keeps _ name (String.length name) _ _ Hj) as Hk.
    apply findSymbol_lookup in Hfound, Hk. congruence.
  - by rewrite lookup_insert_ne.
Qed.

(** X12.  Binding a primitive under a name leaves every binding under
    another name, and every binding on another class, as it was: the same
    symbol id and the same method.  The names are C strings without a NUL
    byte, so that [strlen] gives the whole name. *)
Theorem PRIMITIVE_keeps_other_bindings (w : World) (cls : VM → Value)
    (name : string) (prim : Primitive) (methods : gmap nat Method)
    (other : Value) (name' : string) (symbol : nat) (m : Method) :
  strlenLiteral name = String.length name →
  strlenLiteral name' = String.length name' →
  classExpr cls →
  objects w !! cls (vm w) = Some (ObjClass methods) →
  boundAt w other name' = Some (symbol, m) →
  other ≠ cls (vm w) ∨ name' ≠ name →
  ∃ w', PRIMITIVE cls name prim w = Ok tt w' ∧
        boundAt w' other name' = Some (symbol, m).
Proof.
  intros _ _ Hcls Hc Hb Hother. eexists. split; [by apply PRIMITIVE_after|].
  by apply boundAt_afterPRIMITIVE.
Qed.

Lemma bindsTo_afterPRIMITIVE_new (cls : VM → Value) name prim methods w :
  classExpr cls →
  objects w !! cls (vm w) = Some (ObjClass methods) →
  bindsTo (afterPRIMITIVE cls name prim methods w) (cls (vm w)) name prim.
Proof.
  intros Hcls Hc. eexists. unfold boundAt, afterPRIMITIVE.
  cbn [vm objects set_objects set_vm symbols set_symbols].
  rewrite ensureSymbol_found, lookup_insert_eq.
  unfold lookupMethod. by rewrite lookup_insert_eq.
Qed.

(** Bindings are read from the method symbols and the class object only. *)
Lemma bindsTo_same w w' cls name prim :
  symbols (vm w') = symbols (vm w) → objects w' !! cls = objects w !! cls →
  bindsTo w cls name prim → bindsTo w' cls name prim.
Proof.
  intros Hs Ho [i Hb]. exists i. unfold boundAt in *. by rewrite Hs, Ho.
Qed.

Lemma bindsTo_live w cls name prim :
  bindsTo w cls name prim → cls ∈ dom (objects w).
Proof.
  intros [i Hb]. unfold boundAt in Hb. apply elem_of_dom.
  destruct (findSymbol _ _); [|done].
  destruct (objects w !! cls); [by eexists | done].
Qed.

(** One binding on a built-in class during the bootstrap. *)
Lemma PRIMITIVE_boot (cls : VM → Value) name prim w0 w
    (bs : list (Value * string * Primitive)) :
  cls = numClass ∨ cls = stringClass →
  builtinsRebound w0 w →
  Forall (λ b, bindsTo w b.1.1 b.1.2 b.2) bs →
  Forall (λ b, b.1.1 ≠ cls (vm w0) ∨ b.1.2 ≠ name) bs →
  ∃ w', PRIMITIVE cls name prim w = Ok tt w' ∧
        builtinsRebound w0 w' ∧
        Forall (λ b, bindsTo w' b.1.1 b.1.2 b.2)
          ((cls (vm w0), name, prim) :: bs).
Proof.
  intros Hcls (Hn & Hs & Hu & Hgs & Hg & Hb & Hc & Hd & [[nm Hnm] [sm Hsm]] & Hv
               & Hids)
    Hbs Hdiff.
  assert (classExpr cls) as Hexpr by (by destruct Hcls as [-> | ->]).
  assert (cls (vm w) = cls (vm w0)) as Hsame
    by (by destruct Hcls as [-> | ->]).
  assert (∃ methods, objects w !! cls (vm w) = Some (ObjClass methods))
    as [methods Hm] by (destruct Hcls as [-> | ->]; eauto).
  exists (afterPRIMITIVE cls name prim methods w).
  split; [by apply PRIMITIVE_after|]. split.
  - unfold builtinsRebound, classesReady, afterPRIMITIVE.
    cbn [vm objects buffers console set_objects set_vm set_symbols numClass
         stringClass unsupported globalSymbols globals symbols].
    do 7 (split; [done|]). split; [|split; [split|split]].
    + rewrite dom_insert_L, <- Hd.
      assert (cls (vm w) ∈ dom (objects w)) by (apply elem_of_dom; eauto).
      set_solver.
    + destruct (decide (cls (vm w) = numClass (vm w))) as [->|Hne].
      * rewrite lookup_insert_eq. eauto.
      * rewrite lookup_insert_ne by done. eauto.
    + destruct (decide (cls (vm w) = stringClass (vm w))) as [->|Hne].
      * rewrite lookup_insert_eq. eauto.
      * rewrite lookup_insert_ne by done. eauto.
    + intros v Hv1 Hv2. rewrite lookup_insert_ne; [by apply Hv|].
      rewrite Hsame. destruct Hcls as [-> | ->]; congruence.
    + intros n i Hi. by apply ensureSymbol_keeps, Hids.
  - constructor.
    + rewrite <- Hsame. by apply bindsTo_afterPRIMITIVE_new.
    + rewrite Forall_forall in Hbs, Hdiff. apply Forall_forall.
      intros b Hin. destruct (Hbs b Hin) as [i Hi]. exists i.
      apply boundAt_afterPRIMITIVE; [done|done|].
      rewrite Hsame. by apply Hdiff.
Qed.

Lemma bindsTo_grow w w' cls name prim :
  symbols (vm w') = symbols (vm w) → objects w ⊆ objects w' →
  bindsTo w cls name prim → bindsTo w' cls name prim.
Proof.
  intros Hs Ho Hb. pose proof (bindsTo_live _ _ _ _ Hb) as Hlive.
  apply elem_of_dom in Hlive as [o Hobj].
  apply (bindsTo_same w w'); [done| |done].
  rewrite Hobj. by eapply lookup_weaken.
Qed.

(** The end of [registerPrimitives]: the io class with its [write]
    primitive, the ["io"] global, the sentinel. *)
Lemma bootstrap_tail w :
  ∃ w' ioClass io,
    (let! ioClass := makeClass in
     PRIMITIVE (λ _, ioClass) "write " primitive_io_write >>
     GLOBAL ioClass "io" >>
     let! unsupportedClass := makeClass in
     let! sentinel := makeInstance unsupportedClass in
     modify (set_vm (set_unsupported sentinel))) w = Ok tt w' ∧
    (∀ cls name prim, bindsTo w cls name prim → bindsTo w' cls name prim) ∧
    bindsTo w' ioClass "write " primitive_io_write ∧
    objects w' !! io = Some (ObjInstance ioClass ∅) ∧
    (∃ symbol, findSymbol (globalSymbols (vm w')) "io" = Some symbol ∧
               globals (vm w') !! symbol = Some io) ∧
    numClass (vm w') = numClass (vm w) ∧
    stringClass (vm w') = stringClass (vm w) ∧
    buffers w' = buffers w ∧ console w' = console w ∧
    objects w ⊆ objects w' ∧
    (∀ name symbol, findSymbol (symbols (vm w)) name = Some symbol →
                    findSymbol (symbols (vm w')) name = Some symbol).
Proof.
  unfold makeClass at 1. run (allocate_ok (ObjClass ∅) w).
  set (ioClass := fresh (dom (objects w))).
  set (wb := set_objects <[ioClass := ObjClass ∅]> w).
  assert (ioClass ∉ dom (objects w)) as HioClass by apply is_fresh.
  assert (objects wb !! ioClass = Some (ObjClass ∅)) as Hwb
    by apply lookup_insert_eq.
  run (PRIMITIVE_after (λ _, ioClass) "write " primitive_io_write ∅ wb
         ltac:(done) Hwb).
  set (wc := afterPRIMITIVE _ _ _ _ wb).
  assert (bindsTo wc ioClass "write " primitive_io_write) as Hwrite
    by (by apply (bindsTo_afterPRIMITIVE_new (λ _, ioClass))).
  assert (objects w ⊆ objects wc) as Hsub.
  { unfold wc, afterPRIMITIVE, wb. cbn [objects set_objects set_vm].
    rewrite insert_insert_eq. by apply insert_subseteq, not_elem_of_dom. }
  assert (∀ cls name prim, bindsTo w cls name prim → bindsTo wc cls name prim)
    as Hold.
  { intros cls name prim Hb.
    pose proof (bindsTo_live _ _ _ _ Hb) as Hlive.
    assert (bindsTo wb cls name prim) as [i Hi].
    { apply (bindsTo_grow w wb); [done| |done].
      by apply insert_subseteq, not_elem_of_dom. }
    exists i. apply boundAt_afterPRIMITIVE; [done|done|].
    left. intros ->. done. }
  run (GLOBAL_ok ioClass "io" wc). cbv zeta.
  set (io := fresh (dom (objects wc))).
  match goal with |- context [bind makeClass _ ?w1] => set (wd := w1) end.
  unfold makeClass. run (allocate_ok (ObjClass ∅) wd).
  set (cls := fresh (dom (objects wd))).
  match goal with |- context [bind (makeInstance _) _ ?w1] => set (we := w1) end.
  unfold makeInstance. run (allocate_ok (ObjInstance cls ∅) we).
  set (u := fresh (dom (objects we))).
  rewrite modify_ok.
  match goal with |- context [Ok tt ?w1] => set (wf := w1) end.
  assert (objects wd = <[io := ObjInstance ioClass ∅]> (objects wc)) as Hod
    by done.
  assert (objects we = <[cls := ObjClass ∅]> (objects wd)) as Hoe by done.
  assert (objects wf = <[u := ObjInstance cls ∅]> (objects we)) as Hof by done.
  assert (objects wc ⊆ objects wd) as Hcd.
  { rewrite Hod. apply insert_subseteq, not_elem_of_dom, is_fresh. }
  assert (objects wd ⊆ objects we) as Hde.
  { rewrite Hoe. apply insert_subseteq, not_elem_of_dom, is_fresh. }
  assert (objects we ⊆ objects wf) as Hef.
  { rewrite Hof. apply insert_subseteq, not_elem_of_dom, is_fresh. }
  assert (objects wc ⊆ objects wf) as Hcf
    by (etransitivity; [exact Hcd|]; by etransitivity).
  assert (symbols (vm wf) = symbols (vm wc)) as Hsym by done.
  exists wf, ioClass, io. split; [done|]. split.
  { intros c n p Hb. apply (bindsTo_grow wc wf); [done|done|]. by apply Hold. }
  split; [by apply (bindsTo_grow wc wf)|]. split.
  { apply (lookup_weaken (objects wd)); [|by etransitivity].
    rewrite Hod. apply lookup_insert_eq. }
  split.
  { eexists. split.
    - unfold wf, we, wd. cbn [vm set_vm set_objects globalSymbols
                                set_unsupported set_globals set_globalSymbols].
      unfold addSymbol. apply ensureSymbol_found.
    - unfold wf, we, wd. cbn [vm set_vm set_objects globals
                                set_unsupported set_globals set_globalSymbols].
      apply lookup_insert_eq. }
  do 4 (split; [done|]). split; [by etransitivity|].
  intros n i Hi. rewrite Hsym. unfold wc, afterPRIMITIVE.
  cbn [vm set_objects set_vm symbols set_symbols].
  by apply ensureSymbol_keeps.
Qed.

(** The chain of bindings on the built-in classes, then the tail. *)
Ltac boot_step cls side :=
  match goal with
  | Hinv : builtinsRebound ?w0 ?w1, Hbs : Forall _ ?bs
    |- context [bind (PRIMITIVE cls ?n ?p) _ ?w1] =>
      let w2 := fresh "w" in
      let E := fresh "E" in
      let Hinv2 := fresh "Hinv" in
      let Hbs2 := fresh "Hbs" in
      destruct (PRIMITIVE_boot cls n p w0 w1 bs side Hinv Hbs)
        as (w2 & E & Hinv2 & Hbs2);
      [ repeat first [ apply Forall_nil_2 | apply Forall_cons_2 ]; simpl;
        first [ right; discriminate | left; congruence ]
      | run E; clear E Hinv Hbs w1 ]
  end.

Lemma builtinsRebound_start w : classesReady w → builtinsRebound w w.
Proof. intros H. by repeat split; try apply H. Qed.

(** A step of the chain when no binding is followed. *)
Ltac frame_step cls side :=
  match goal with
  | Hinv : builtinsRebound ?w0 ?w1
    |- context [bind (PRIMITIVE cls ?n ?p) _ ?w1] =>
      let w2 := fresh "w" in
      let E := fresh "E" in
      let Hinv2 := fresh "Hinv" in
      destruct (PRIMITIVE_boot cls n p w0 w1 [] side Hinv
                  (Forall_nil_2 _) (Forall_nil_2 _))
        as (w2 & E & Hinv2 & _);
      run E; clear E Hinv w1
  end.

Lemma registerPrimitives_run w0 w :
  builtinsRebound w0 w → numClass (vm w0) ≠ stringClass (vm w0) →
  ∃ w' ioClass io,
    registerPrimitives w = Ok tt w' ∧
    numClass (vm w') = numClass (vm w0) ∧
    stringClass (vm w') = stringClass (vm w0) ∧
    Forall (λ b, bindsTo w' b.1.1 b.1.2 b.2)
      [ (stringClass (vm w0), "+ ", primitive_string_plus);
        (stringClass (vm w0), "toString", primitive_string_toString);
        (stringClass (vm w0), "count", primitive_string_count);
        (stringClass (vm w0), "contains ", primitive_string_contains);
        (numClass (vm w0), "/ ", primitive_num_divide);
        (numClass (vm w0), "* ", primitive_num_multiply);
        (numClass (vm w0), "+ ", primitive_num_plus);
        (numClass (vm w0), "- ", primitive_num_minus);
        (numClass (vm w0), "toString", primitive_num_toString);
        (numClass (vm w0), "abs", primitive_num_abs) ] ∧
    bindsTo w' ioClass "write " primitive_io_write ∧
    objects w' !! io = Some (ObjInstance ioClass ∅) ∧
    (∃ symbol, findSymbol (globalSymbols (vm w')) "io" = Some symbol ∧
               globals (vm w') !! symbol = Some io).
Proof.
  intros Hinv Hne. unfold registerPrimitives.
  assert (Forall (λ b : Value * string * Primitive,
                    bindsTo w b.1.1 b.1.2 b.2) []) as Hbs by constructor.
  do 6 boot_step numClass
    (@or_introl (numClass = numClass) (numClass = stringClass) eq_refl).
  do 4 boot_step stringClass
    (@or_intror (stringClass = numClass) (stringClass = stringClass) eq_refl).
  match goal with
  | Hinv : builtinsRebound w0 ?w10, Hbs : Forall _ _ |- _ =>
      destruct (bootstrap_tail w10)
        as (w' & ioClass & io & E & Hold & Hwrite & Hio & Hglobal
            & Hn & Hs & _);
      destruct Hinv as (Hn0 & Hs0 & _);
      exists w', ioClass, io; split; [exact E|];
      split; [by rewrite Hn|]; split; [by rewrite Hs|];
      split; [|done];
      eapply Forall_impl; [exact Hbs|]; intros b; apply Hold
  end.
Qed.

(** X13.  After [registerPrimitives], on a machine whose two built-in classes are
    different objects, a lookup finds each of the six primitives of Numbers
    on the Number class, each of the four primitives of Strings on the
    String class and [io_write] on the class of the ["io"] global; the two
    class pointers are as before. *)
Theorem registerPrimitives_binds_all (w : World) :
  classesReady w → numClass (vm w) ≠ stringClass (vm w) →
  ∃ w' ioClass io,
    registerPrimitives w = Ok tt w' ∧
    numClass (vm w') = numClass (vm w) ∧
    stringClass (vm w') = stringClass (vm w) ∧
    bindsTo w' (numClass (vm w')) "abs" primitive_num_abs ∧
    bindsTo w' (numClass (vm w')) "toString" primitive_num_toString ∧
    bindsTo w' (numClass (vm w')) "- " primitive_num_minus ∧
    bindsTo w' (numClass (vm w')) "+ " primitive_num_plus ∧
    bindsTo w' (numClass (vm w')) "* " primitive_num_multiply ∧
    bindsTo w' (numClass (vm w')) "/ " primitive_num_divide ∧
    bindsTo w' (stringClass (vm w')) "contains " primitive_string_contains ∧
    bindsTo w' (stringClass (vm w')) "count" primitive_string_count ∧
    bindsTo w' (stringClass (vm w')) "toString" primitive_string_toString ∧
    bindsTo w' (stringClass (vm w')) "+ " primitive_string_plus ∧
    (∃ symbol, findSymbol (globalSymbols (vm w')) "io" = Some symbol ∧
               globals (vm w') !! symbol = Some io) ∧
    objects w' !! io = Some (ObjInstance ioClass ∅) ∧
    bindsTo w' ioClass "write " primitive_io_write.
Proof.
  intros Hready Hne.
  destruct (registerPrimitives_run w w (builtinsRebound_start w Hready) Hne)
    as (w' & ioClass & io & E & Hn & Hs & Hall & Hwrite & Hio & Hglobal).
  exists w', ioClass, io. rewrite Hn, Hs.
  repeat (apply Forall_cons in Hall as [? Hall]).
  simpl in *. by repeat split.
Qed.

(** X14.  [registerPrimitives] writes to no character buffer and not to the
    console, leaves every existing object other than the two built-in
    classes as it was, and keeps the symbol id of every method name that
    was registered before. *)
Theorem registerPrimitives_frame (w : World) :
  classesReady w →
  ∃ w', registerPrimitives w = Ok tt w' ∧
        buffers w' = buffers w ∧ console w' = console w ∧
        (∀ v o, objects w !! v = Some o →
                v ≠ numClass (vm w) → v ≠ stringClass (vm w) →
                objects w' !! v = Some o) ∧
        (∀ name symbol, findSymbol (symbols (vm w)) name = Some symbol →
                        findSymbol (symbols (vm w')) name = Some symbol).
Proof.
  intros Hready. unfold registerPrimitives.
  pose proof (builtinsRebound_start w Hready) as Hinv.
  revert Hinv. generalize w at 2 3. intros w1 Hinv.
  do 6 frame_step numClass
    (@or_introl (numClass = numClass) (numClass = stringClass) eq_refl).
  do 4 frame_step stringClass
    (@or_intror (stringClass = numClass) (stringClass = stringClass) eq_refl).
  match goal with
  | Hinv : builtinsRebound w ?w10 |- _ =>
      destruct (bootstrap_tail w10)
        as (w' & ioClass & io & E & _ & _ & _ & _ & _ & _ & Hb & Hc
            & Hsub & Hids);
      destruct Hinv as (_ & _ & _ & _ & _ & Hb0 & Hc0 & _ & _ & Hv0 & Hids0)
  end.
  exists w'. split; [exact E|]. split; [congruence|]. split; [congruence|].
  split.
  - intros v o Hv H1 H2. apply (lookup_weaken _ _ _ _ (eq_trans (Hv0 v H1 H2) Hv) Hsub).
  - intros n i Hi. by apply Hids, Hids0.
Qed.

(** ** Room for the terminator *)

(** [string_plus] is its tag test and its reads followed by
    [concatenateInto] at the sum of the two lengths. *)
Lemma string_plus_body args :
  string_plus args =
    (let! a1 := arg args 1 in
     let! t := typeOf a1 in
     if decide (t ≠ OBJ_STRING) then returnUnsupported else
     let! a0 := arg args 0 in
     let! left := AS_STRING a0 in
     let! right := AS_STRING a1 in
     let! leftLength := strlen left in
     let! rightLength := strlen right in
     concatenateInto (leftLength + rightLength) left right leftLength).
Proof. reflexivity. Qed.

(** X15.  The allocation and the two copies of [string_plus] need one byte more
    than the two lengths: in a block of at most [leftLength + rightLength]
    bytes, the size the source asks for, the terminator is written past the
    end; in any larger block they leave the two strings one after the
    other in a new buffer, under a new String, and change no buffer that
    existed. *)
Theorem concatenation_needs_terminator_room (w : World) (size : nat)
    (left right : CharPtr) (ls rs : list ascii) :
  cellsAt w left ≫= cstring = Some ls →
  cellsAt w right ≫= cstring = Some rs →
  (size ≤ length ls + length rs →
     concatenateInto size left right (length ls) w = Fault OutOfBounds) ∧
  (length ls + length rs < size →
     ∃ r b w',
       concatenateInto size left right (length ls) w = Ok r w' ∧
       (r ∉ dom (objects w)) ∧ (b ∉ dom (buffers w)) ∧
       objects w' = <[r := ObjString {| block := b; offset := 0 |}]> (objects w) ∧
       cellsAt w' {| block := b; offset := 0 |} ≫= cstring = Some (ls ++ rs) ∧
       ∀ k, k ≠ b → buffers w' !! k = buffers w !! k).
Proof.
  intros Hl Hr. unfold concatenateInto.
  run (malloc_ok size w).
  set (b := fresh (dom (buffers w))).
  set (cells := replicate size (@None ascii)).
  set (w1 := set_buffers <[b := cells]> w).
  assert (b ∉ dom (buffers w)) as Hfresh by apply is_fresh.
  assert (block left ≠ b) as Hlb by (by eapply cellsAt_fresh_ne).
  assert (block right ≠ b) as Hrb by (by eapply cellsAt_fresh_ne).
  assert (buffers w1 !! b = Some cells) as Hb by apply lookup_insert_eq.
  assert (cellsAt w1 left ≫= cstring = Some ls) as Hl1
    by (unfold w1; by rewrite cellsAt_frame).
  assert (cellsAt w1 right ≫= cstring = Some rs) as Hr1
    by (unfold w1; by rewrite cellsAt_frame).
  assert (length cells = size) as Hsize by apply length_replicate.
  destruct (two_strcpy w1 b cells left right ls rs Hb Hl1 Hlb Hr1 Hrb)
    as [Hsmall Hlarge]. cbv zeta in Hsmall, Hlarge.
  simpl block in *. simpl offset in *.
  rewrite <- (bind_assoc (strcpy _ left) (λ _, strcpy _ right)
                (λ _, makeString _)).
  split; intros Hn.
  - apply bind_fault, Hsmall. lia.
  - destruct (Hlarge ltac:(lia)) as (w2 & E & Hcat & Hobj & Hvm & Hdom).
    run E. unfold makeString. rewrite allocate_ok.
    eexists _, b, _. split; [reflexivity|].
    split; [rewrite Hobj; apply is_fresh|]. split; [done|].
    split; [simpl; by rewrite Hobj|]. split; [exact Hcat|].
    intros k Hk. simpl.
    apply bind_inv in E as (? & w' & H1%strcpy_onlyWrites & H2%strcpy_onlyWrites).
    destruct H1 as (_ & _ & _ & _ & H1), H2 as (_ & _ & _ & _ & H2).
    simpl in H1, H2. rewrite (H2 k Hk), (H1 k Hk).
    unfold w1. simpl. by rewrite lookup_insert_ne.
Qed.

(** ** Globals *)

(** X16.  [GLOBAL(cls, name)], for a name without a NUL byte, creates one
    object, an instance of [cls] without fields, and stores it in the
    global slot of [name]; every global registered under another such name
    keeps its slot and its value, and the method symbols, the buffers and
    the console are not touched. *)
Theorem GLOBAL_registers (w : World) (cls : Value) (name : string) :
  strlenLiteral name = String.length name →
  ∃ w' obj symbol,
    GLOBAL cls name w = Ok tt w' ∧
    (obj ∉ dom (objects w)) ∧
    objects w' = <[obj := ObjInstance cls ∅]> (objects w) ∧
    findSymbol (globalSymbols (vm w')) name = Some symbol ∧
    globals (vm w') !! symbol = Some obj ∧
    (∀ other i, strlenLiteral other = String.length other → other ≠ name →
       findSymbol (globalSymbols (vm w)) other = Some i →
       findSymbol (globalSymbols (vm w')) other = Some i ∧
       globals (vm w') !! i = globals (vm w) !! i) ∧
    symbols (vm w') = symbols (vm w) ∧
    buffers w' = buffers w ∧ console w' = console w.
Proof.
  intros _. eexists _, _, _. split; [apply GLOBAL_ok|]. cbv zeta.
  cbn [vm objects buffers console set_vm set_objects set_globals
       set_globalSymbols globalSymbols globals symbols].
  split; [apply is_fresh|]. split; [done|].
  unfold addSymbol. split; [apply ensureSymbol_found|].
  split; [apply lookup_insert_eq|]. split; [|done].
  intros other i _ Hother Hi.
  pose proof (ensureSymbol_keeps _ name (String.length name) _ _ Hi) as Hk.
  split; [exact Hk|]. rewrite lookup_insert_ne; [done|].
  intros E.
  pose proof (ensureSymbol_found (globalSymbols (vm w)) name) as Hfound.
  simpl in Hfound. rewrite E in Hfound.
  apply findSymbol_lookup in Hfound, Hk. congruence.
Qed.

(** ** The further properties at work *)

Lemma primitives_keep_objects_witness :
  ∃ r w', callPrimitive digitText kindText primitive_num_plus
            [3; 4]%positive sampleWorld = Ok r w' ∧
          vm w' = vm sampleWorld ∧ objects sampleWorld ⊆ objects w'.
Proof.
  eexists _, _. split; [vm_compute; reflexivity|].
  eapply (primitives_keep_objects digitText kindText primitive_num_plus
           [3; 4]%positive sampleWorld).
  vm_compute. reflexivity.
Defined.

Lemma primitives_keep_buffers_witness :
  ∃ r w', callPrimitive digitText kindText primitive_num_toString
            [3%positive] sampleWorld = Ok r w' ∧
          buffers sampleWorld ⊆ buffers w' ∧
          console sampleWorld `prefix_of` console w' ∧
          (primitive_num_toString ≠ primitive_io_write →
           console w' = console sampleWorld).
Proof.
  eexists _, _. split; [vm_compute; reflexivity|].
  eapply (primitives_keep_buffers digitText kindText primitive_num_toString
           [3%positive] sampleWorld); [discriminate|].
  vm_compute. reflexivity.
Defined.

Lemma result_new_or_given_witness :
  ∃ r w', callPrimitive digitText kindText primitive_io_write
            [3; 7]%positive sampleWorld = Ok r w' ∧
          ((r ∉ dom (objects sampleWorld)) ∨
           r = unsupported (vm sampleWorld) ∨
           (primitive_io_write = primitive_string_toString ∧
            [3; 7]%positive !! 0 = Some r) ∨
           (primitive_io_write = primitive_io_write ∧
            [3; 7]%positive !! 1 = Some r)).
Proof.
  eexists _, _. split; [vm_compute; reflexivity|].
  eapply (result_new_or_given digitText kindText primitive_io_write
            [3; 7]%positive sampleWorld).
  vm_compute. reflexivity.
Defined.

Lemma digitText_six_no_NUL : NUL ∉ digitText 6.
Proof.
  apply not_elem_of_cons. split; [discriminate | apply not_elem_of_nil].
Defined.

Lemma digitText_six_short : length (digitText 6) < 100.
Proof. vm_compute. lia. Defined.

Lemma num_toString_renders_witness :
  ∃ r b w',
    num_toString digitText [3%positive] sampleWorld = Ok r w' ∧
    (r ∉ dom (objects sampleWorld)) ∧ (b ∉ dom (buffers sampleWorld)) ∧
    holdsString w' r (digitText 6) ∧
    objects w'
      = <[r := ObjString {| block := b; offset := 0 |}]> (objects sampleWorld) ∧
    buffers w' = <[b := Some <$> (digitText 6 ++ [NUL])]> (buffers sampleWorld) ∧
    vm w' = vm sampleWorld ∧ console w' = console sampleWorld.
Proof.
  exact (num_toString_renders digitText sampleWorld [3%positive] 3%positive 6
           eq_refl eq_refl digitText_six_no_NUL digitText_six_short).
Defined.

Lemma num_toString_then_count_witness :
  ∃ r w', num_toString digitText [3%positive] sampleWorld = Ok r w' ∧
          returnsNumber (string_count [r]) w'
            (toDouble (Z.of_nat (length (digitText 6)))).
Proof.
  exact (num_toString_then_count digitText sampleWorld [3%positive] 3%positive
           6 eq_refl eq_refl digitText_six_no_NUL digitText_six_short).
Defined.

Lemma string_count_to_first_NUL_witness :
  returnsNumber (string_count [7%positive]) sampleWorld
    (toDouble (Z.of_nat (length (list_ascii_of_string "hello")))).
Proof.
  apply (string_count_to_first_NUL sampleWorld [7%positive] 7%positive
           {| block := 1; offset := 0 |} (list_ascii_of_string "hello") []);
    [reflexivity | reflexivity | reflexivity |].
  intros H. repeat (apply elem_of_cons in H as [H|H]; [discriminate H|]).
  by apply elem_of_nil in H.
Defined.

Lemma string_contains_decides_occurrence_witness :
  returnsNumber (string_contains [7; 8]%positive) sampleWorld 1.
Proof.
  apply (string_contains_decides_occurrence sampleWorld [7; 8]%positive
           7%positive 8%positive
           (list_ascii_of_string "hello") (list_ascii_of_string "ell")
           eq_refl eq_refl
           (sampleWorld_holdsString 7%positive 1%positive "hello"
              eq_refl eq_refl eq_refl)
           (sampleWorld_holdsString 8%positive 2%positive "ell"
              eq_refl eq_refl eq_refl)).
  exists (list_ascii_of_string "h"), (list_ascii_of_string "o"). reflexivity.
Defined.

Lemma numeric_receiver_not_tested_witness :
  num_plus [7; 3]%positive sampleWorld = Fault WrongVariant ∧
  num_minus [7; 3]%positive sampleWorld = Fault WrongVariant ∧
  num_multiply [7; 3]%positive sampleWorld = Fault WrongVariant ∧
  num_divide [7; 3]%positive sampleWorld = Fault WrongVariant.
Proof.
  apply (numeric_receiver_not_tested sampleWorld 7%positive 3%positive []
           (ObjString {| block := 1; offset := 0 |}) 6);
    [reflexivity | | reflexivity].
  simpl. discriminate.
Defined.

Lemma num_abs_agrees_with_fabs_witness :
  returnsNumber (num_abs [4%positive]) sampleWorld (abs (-1.5)) ∧
  returnsNumber (num_abs [4%positive]) sampleWorld 1.5.
Proof.
  assert (returnsNumber (num_abs [4%positive]) sampleWorld (abs (-1.5))) as H.
  { apply (num_abs_agrees_with_fabs sampleWorld [4%positive] 4%positive (-1.5)
             eq_refl eq_refl); [reflexivity|].
    intros E. apply (f_equal Prim2SF) in E. vm_compute in E. discriminate E. }
  split; exact H.
Defined.

Lemma num_abs_idempotent_witness :
  ∃ r w1, num_abs [4%positive] sampleWorld = Ok r w1 ∧
          objects w1 !! r = Some (ObjNum (absValue (-1.5))) ∧
          returnsNumber (num_abs [r]) w1 (absValue (-1.5)).
Proof.
  exact (num_abs_idempotent sampleWorld [4%positive] 4%positive (-1.5)
           eq_refl eq_refl).
Defined.

Lemma PRIMITIVE_keeps_other_bindings_witness :
  ∃ w', PRIMITIVE numClass "toString" primitive_num_toString boundWorld
          = Ok tt w' ∧
        boundAt w' 1%positive "abs"
          = Some (0, primitiveMethod primitive_num_abs).
Proof.
  apply (PRIMITIVE_keeps_other_bindings boundWorld numClass "toString"
           primitive_num_toString
           (<[0 := primitiveMethod primitive_num_abs]> ∅) 1%positive "abs").
  - reflexivity.
  - reflexivity.
  - intros table v. reflexivity.
  - reflexivity.
  - reflexivity.
  - right. discriminate.
Defined.

Lemma bareWorld_classes_differ :
  numClass (vm bareWorld) ≠ stringClass (vm bareWorld).
Proof. discriminate. Defined.

Lemma registerPrimitives_binds_all_witness :
  ∃ w' ioClass,
    registerPrimitives bareWorld = Ok tt w' ∧
    bindsTo w' (numClass (vm w')) "+ " primitive_num_plus ∧
    bindsTo w' (stringClass (vm w')) "+ " primitive_string_plus ∧
    bindsTo w' ioClass "write " primitive_io_write.
Proof.
  destruct (registerPrimitives_binds_all bareWorld bareWorld_classesReady
              bareWorld_classes_differ)
    as (w' & ioClass & io & E & _ & _ & _ & _ & _ & Hp & _ & _ & _ & _ & _
        & Hs & _ & _ & Hw).
  exists w', ioClass. split; [exact E|]. split; [exact Hp|].
  split; [exact Hs|exact Hw].
Defined.

Lemma sampleWorld_classesReady : classesReady sampleWorld.
Proof. split; eexists; reflexivity. Defined.

Lemma registerPrimitives_frame_witness :
  ∃ w', registerPrimitives sampleWorld = Ok tt w' ∧
        buffers w' = buffers sampleWorld ∧
        console w' = console sampleWorld ∧
        objects w' !! 7%positive
          = Some (ObjString {| block := 1; offset := 0 |}).
Proof.
  destruct (registerPrimitives_frame sampleWorld sampleWorld_classesReady)
    as (w' & E & Hb & Hc & Ho & _).
  exists w'. split; [exact E|]. split; [exact Hb|]. split; [exact Hc|].
  apply Ho; [reflexivity | discriminate | discriminate].
Defined.

Lemma concatenation_needs_terminator_room_witness :
  concatenateInto 8 {| block := 1; offset := 0 |} {| block := 2; offset := 0 |}
    5 sampleWorld = Fault OutOfBounds ∧
  ∃ r b w',
    concatenateInto 9 {| block := 1; offset := 0 |}
      {| block := 2; offset := 0 |} 5 sampleWorld = Ok r w' ∧
    cellsAt w' {| block := b; offset := 0 |} ≫= cstring
      = Some (list_ascii_of_string "helloell").
Proof.
  split.
  - apply (concatenation_needs_terminator_room sampleWorld 8
             {| block := 1; offset := 0 |} {| block := 2; offset := 0 |}
             (list_ascii_of_string "hello") (list_ascii_of_string "ell")
             eq_refl eq_refl).
    simpl. lia.
  - destruct (concatenation_needs_terminator_room sampleWorld 9
                {| block := 1; offset := 0 |} {| block := 2; offset := 0 |}
                (list_ascii_of_string "hello") (list_ascii_of_string "ell")
                eq_refl eq_refl) as [_ H].
    destruct (H ltac:(simpl; lia)) as (r & b & w' & E & _ & _ & _ & Hcat & _).
    exists r, b, w'. split; [exact E | exact Hcat].
Defined.

Lemma GLOBAL_registers_witness :
  ∃ w' obj symbol,
    GLOBAL 1%positive "io" sampleWorld = Ok tt w' ∧
    (obj ∉ dom (objects sampleWorld)) ∧
    objects w' = <[obj := ObjInstance 1 ∅]> (objects sampleWorld) ∧
    findSymbol (globalSymbols (vm w')) "io" = Some symbol ∧
    globals (vm w') !! symbol = Some obj.
Proof.
  destruct (GLOBAL_registers sampleWorld 1%positive "io" eq_refl)
    as (w' & obj & symbol & E & Hnew & Hobj & Hsym & Hglobal & _).
  exists w', obj, symbol. split; [exact E|]. split; [exact Hnew|].
  split; [exact Hobj|]. split; [exact Hsym | exact Hglobal].
Defined.
